(** * QuLab, [t.c]: exhaustive enumeration of arithmetic expressions

    The C program builds expression trees over the two constants [M_E] and
    [M_PI] with the five binary operators [add], [sub], [mul], [truediv] and
    [power], evaluates them and prints the ones whose floor is a target.

    This development embeds the program function by function:

    - [int] values are integers of [Z] with 32-bit two's-complement
      wrap-around written out ([wrap]);
    - [double] values are the kernel's binary64 floats; [pow] of libm is a
      section variable;
    - an [Expr] handle is the tree it points to, every node tagged with the
      address [malloc] returned for it.  Nodes are never written after their
      creation, so a handle copied by value is the same tagged tree;
    - the allocator is explicit state ([heap]): [malloc] hands out fresh
      addresses, [free] records the release and faults on an address that
      is not live;
    - an [ExprList] is the record of its three fields, the slot array being
      a list of possibly uninitialised slots;
    - [expr_iter] recurses without a measure, so it takes fuel; running out
      of fuel is an outcome of its own, apart from a memory fault. *)

From Stdlib Require Import ZArith Lia Floats String Ascii.
From stdpp Require Import base option list.

Open Scope Z_scope.

(** ** Machine integers *)

Definition INT_MAX : Z := 2147483647.

(** The value an [int] holds after an arithmetic result [z]. *)
Definition wrap (z : Z) : Z := (z + 2147483648) mod 4294967296 - 2147483648.

(** ** The macros of the program *)

Definition LIMIT : Z := 7.
Definition NUMS_SIZE : Z := 2.
Definition OPS_SIZE : Z := 5.

(** [M_E] and [M_PI] of <math.h>, as the binary64 values the literals
    denote. *)
Definition M_E : float := 0x1.5bf0a8b145769p+1%float.
Definition M_PI : float := 0x1.921fb54442d18p+1%float.

(** ** Operators

    [op_func] is a pointer to one of the five functions of the program; the
    constructors are the five function designators. *)

Inductive op_func : Type := add | sub | mul | truediv | power.

#[global] Instance op_func_eq_dec : EqDecision op_func.
Proof. solve_decision. Defined.

(** ** Expression handles *)

Definition addr : Type := nat.
Bind Scope nat_scope with addr.

(** [DoubleExpr p v]: [type == 0], [expr] points to the double [v] stored at
    [p].  [TupleExpr p op l r]: [type == 1], [expr] points to the [Tuple]
    [{op, l, r}] stored at [p]. *)
Inductive Expr : Type :=
  | DoubleExpr (p : addr) (value : float)
  | TupleExpr (p : addr) (op : op_func) (left right : Expr).

(** The field [type] of a handle. *)
Definition type (e : Expr) : Z :=
  match e with
  | DoubleExpr _ _ => 0
  | TupleExpr _ _ _ _ => 1
  end.

(** The field [expr] of a handle: the address of the node. *)
Definition expr_ptr (e : Expr) : addr :=
  match e with
  | DoubleExpr p _ => p
  | TupleExpr p _ _ _ => p
  end.

(** ** Expression lists *)

(** The slot array [expr] has one entry per allocated slot; [None] is a slot
    that was never written. *)
Record ExprList : Type := mkExprList {
  expr : list (option Expr);
  size : Z;
  capacity : Z
}.

(** [malloc(sizeof(Expr) * capacity)] yields [capacity] fresh slots, none
    when [capacity] is not positive. *)
Definition create_expr_list (capacity : Z) : ExprList :=
  {| expr := replicate (Z.to_nat capacity) None;
     size := 0;
     capacity := capacity |}.

(** [list->capacity *= 2] followed by [realloc]: the slots kept are the old
    ones up to the new capacity. *)
Definition grow (l : ExprList) : ExprList :=
  let capacity' := wrap (capacity l * 2) in
  {| expr := resize (Z.to_nat capacity') None (expr l);
     size := size l;
     capacity := capacity' |}.

(** [list->expr[list->size++] = expr].  A store outside the slot array is
    undefined behaviour: [None]. *)
Definition store_next (l : ExprList) (e : Expr) : option ExprList :=
  if decide (0 ≤ size l < Z.of_nat (length (expr l))) then
    Some {| expr := <[Z.to_nat (size l) := Some e]> (expr l);
            size := wrap (size l + 1);
            capacity := capacity l |}
  else None.

Definition append_expr_list (l : ExprList) (e : Expr) : option ExprList :=
  store_next (if size l =? capacity l then grow l else l) e.

(** The slots in use, [expr[0 .. size-1]]. *)
Definition used (l : ExprList) : list (option Expr) :=
  take (Z.to_nat (size l)) (expr l).

(** [holds l xs]: the list stores exactly [xs], in this order. *)
Definition holds (l : ExprList) (xs : list Expr) : Prop :=
  size l = Z.of_nat (length xs) ∧ used l = Some <$> xs.

(** The invariant of a list in use. *)
Definition list_ok (l : ExprList) : Prop :=
  0 ≤ size l ≤ capacity l ∧ capacity l ≤ INT_MAX
  ∧ Z.of_nat (length (expr l)) = capacity l.

(** Appending a sequence of handles, one call after the other. *)
Fixpoint append_all (l : ExprList) (xs : list Expr) : option ExprList :=
  match xs with
  | [] => Some l
  | x :: xs' =>
      match append_expr_list l x with
      | Some l' => append_all l' xs'
      | None => None
      end
  end.

(** ** The allocator and the monad of the program *)

(** Addresses below [next] have been handed out; [freed] lists the ones
    released since, latest first. *)
Record heap : Type := mkHeap {
  next : addr;
  freed : list addr
}.

Definition live (h : heap) (p : addr) : Prop := (p < next h)%nat ∧ p ∉ freed h.

#[global] Instance live_dec h p : Decision (live h p).
Proof. unfold live. apply _. Defined.

Inductive outcome (A : Type) : Type :=
  | Ok (a : A) (h : heap)
  | Fault
  | OutOfFuel.
Arguments Ok {A} a h.
Arguments Fault {A}.
Arguments OutOfFuel {A}.

Definition M (A : Type) : Type := heap → outcome A.

Definition ret {A} (a : A) : M A := fun h => Ok a h.

Definition bind {A B} (m : M A) (k : A → M B) : M B :=
  fun h =>
    match m h with
    | Ok a h' => k a h'
    | Fault => Fault
    | OutOfFuel => OutOfFuel
    end.

Definition fault {A} : M A := fun _ => Fault.
Definition out_of_fuel {A} : M A := fun _ => OutOfFuel.

Declare Scope prog_scope.
Delimit Scope prog_scope with prog.
Notation "x <- m ;; k" := (bind m (fun x => k))
  (at level 100, m at next level, right associativity) : prog_scope.
Notation "m ;;; k" := (bind m (fun _ => k))
  (at level 100, right associativity) : prog_scope.
Open Scope prog_scope.

(** A step of the program that cannot touch the allocator. *)
Definition lift {A} (o : option A) : M A :=
  match o with
  | Some a => ret a
  | None => fault
  end.

(** [malloc] never fails and never reuses an address. *)
Definition malloc : M addr :=
  fun h => Ok (next h) {| next := S (next h); freed := freed h |}.

(** [free(p)]: releasing an address that is not live is a fault. *)
Definition free (p : addr) : M unit :=
  fun h =>
    if decide (live h p)
    then Ok tt {| next := next h; freed := p :: freed h |}
    else Fault.

(** Reading through a node pointer: the node must be live. *)
Definition deref (p : addr) : M unit :=
  fun h => if decide (live h p) then Ok tt h else Fault.

(** [a[i]] on an array of [length a] cells. *)
Definition index {A} (a : list A) (i : Z) : M A :=
  if decide (0 ≤ i) then lift (a !! Z.to_nat i) else fault.

(** [list->expr[i]]: the slot must have been written. *)
Definition slot (l : ExprList) (i : Z) : M Expr :=
  s <- index (expr l) i;; lift s.

(** [for (int i = lo; i < lo + n; i++) s = body(i, s)]. *)
Fixpoint for_loop {St : Type} (n : nat) (i : Z) (body : Z → St → M St)
    (s : St) : M St :=
  match n with
  | O => ret s
  | S n' => s' <- body i s;; for_loop n' (i + 1) body s'
  end.

(** [for (int i = 0; i < hi; i++)], for a bound [hi] that the body leaves
    alone. *)
Definition for_int {St : Type} (hi : Z) (body : Z → St → M St) (s : St)
  : M St :=
  for_loop (Z.to_nat hi) 0 body s.

(** ** Constructors of handles *)

Definition create_double_expr (value : float) : M Expr :=
  p <- malloc;; ret (DoubleExpr p value).

Definition create_tuple_expr (op : op_func) (left right : Expr) : M Expr :=
  p <- malloc;; ret (TupleExpr p op left right).

(** ** Releasing a list

    For every element of type 1 the two children's nodes and the tuple are
    released; an element of type 0 is skipped.  The slot array and the
    header, released last, are not objects of the modelled heap. *)
Definition free_expr_list (l : ExprList) : M unit :=
  for_int (size l)
    (fun i _ =>
       e <- slot l i;;
       match e with
       | TupleExpr p _ left_ right_ =>
           deref p;;;
           free (expr_ptr left_);;;
           deref p;;;
           free (expr_ptr right_);;;
           free p
       | DoubleExpr _ _ => ret tt
       end)
    tt.

(** ** The generator *)

(** The budget of the right operands: [limit - (left.type == 1 ? 1 : 0)]. *)
Definition right_limit (limit : Z) (left : Expr) : Z :=
  wrap (limit - (if type left =? 1 then 1 else 0)).

(** The body of [expr_iter], its recursive calls going to [rec]. *)
Definition expr_iter_body (rec : Z → M ExprList)
    (ops : list op_func) (nums : list float) (limit : Z) : M ExprList :=
  let l := create_expr_list 100 in
  if limit =? 0 then ret l else
  l <- for_int NUMS_SIZE
         (fun i l =>
            v <- index nums i;;
            e <- create_double_expr v;;
            lift (append_expr_list l e))
         l;;
  l <- for_int OPS_SIZE
         (fun i l =>
            left_list <- rec (wrap (limit - 1));;
            l <- for_int (size left_list)
                   (fun j l =>
                      left <- slot left_list j;;
                      right_list <- rec (right_limit limit left);;
                      l <- for_int (size right_list)
                             (fun k l =>
                                right <- slot right_list k;;
                                op <- index ops i;;
                                e <- create_tuple_expr op left right;;
                                lift (append_expr_list l e))
                             l;;
                      free_expr_list right_list;;;
                      ret l)
                   l;;
            free_expr_list left_list;;;
            ret l)
         l;;
  ret l.

Fixpoint expr_iter (fuel : nat) (ops : list op_func) (nums : list float)
    (limit : Z) : M ExprList :=
  match fuel with
  | O => out_of_fuel
  | S fuel' => expr_iter_body (expr_iter fuel' ops nums) ops nums limit
  end.

(** ** The arrays and the first and last step of [main] *)

Definition main_ops : list op_func := [add; sub; mul; truediv; power].
Definition main_nums : list float := [M_E; M_PI].

Definition heap0 : heap := {| next := 0; freed := [] |}.

(** [list = expr_iter(ops, nums, limit); ...; free_expr_list(list)], the
    evaluation and printing in between left out: they do not allocate. *)
Definition generate_then_free (fuel : nat) (limit : Z) : M ExprList :=
  l <- expr_iter fuel main_ops main_nums limit;;
  free_expr_list l;;;
  ret l.

(** ** The evaluator

    The evaluator and the formatter read the tree of a handle whose nodes
    are live; they do not allocate. *)

Section Evaluator.

(** [pow] of <math.h>. *)
Variable pow : float → float → float.

(** Calling through an [op_func]: the bodies of the five functions. *)
Definition call (op : op_func) (a b : float) : float :=
  match op with
  | add => a + b
  | sub => a - b
  | mul => a * b
  | truediv => a / b
  | power => pow a b
  end%float.

Fixpoint expr_eval (e : Expr) : float :=
  match e with
  | DoubleExpr _ value => value
  | TupleExpr _ op left_ right_ => call op (expr_eval left_) (expr_eval right_)
  end.

End Evaluator.

(** ** The formatter *)

Open Scope string_scope.

(** The chain of comparisons [tuple->op == add], ...; [None] is the
    character left unassigned when none matches. *)
Definition op_char (op : op_func) : option ascii :=
  if decide (op = add) then Some "+"%char
  else if decide (op = sub) then Some "-"%char
  else if decide (op = mul) then Some "*"%char
  else if decide (op = truediv) then Some "/"%char
  else if decide (op = power) then Some "^"%char
  else None.

(** The text a call leaves in a destination of [n] bytes: it has to fit
    together with its terminating zero. *)
Definition into_buffer (n : nat) (text : option string) : option string :=
  match text with
  | Some s => if decide (String.length s < n)%nat then Some s else None
  | None => None
  end.

(** [expr_repr e] is the text written to [buffer], or [None] when the call
    writes nothing (a leaf that is neither constant) or has no defined
    behaviour (it reads a buffer that was not written, or overruns one of
    its two local buffers). *)
Fixpoint expr_repr (e : Expr) : option string :=
  match e with
  | DoubleExpr _ value =>
      if (value =? M_PI)%float then Some "pi"
      else if (value =? M_E)%float then Some "e"
      else None
  | TupleExpr _ op left_ right_ =>
      match into_buffer 256 (expr_repr left_),
            into_buffer 256 (expr_repr right_),
            op_char op with
      | Some left_buffer, Some right_buffer, Some c =>
          Some ("(" ++ left_buffer ++ " " ++ String c (" " ++ right_buffer ++ ")"))
      | _, _, _ => None
      end
  end.

Close Scope string_scope.

(** * Vocabulary of the statements *)

(** The handles a list stores, slots never written left out. *)
Definition contents (l : ExprList) : list Expr := omap id (used l).

(** The two leaves a call creates on heap [h] for the constants [v0], [v1],
    and the heap they leave. *)
Definition leaves (h : heap) (v0 v1 : float) : list Expr :=
  [DoubleExpr (next h) v0; DoubleExpr (S (next h)) v1].

Definition after_leaves (h : heap) : heap :=
  {| next := S (S (next h)); freed := freed h |}.

(** What [append_expr_list] is expected to do to the list obtained from
    [create_expr_list cap] by appending [xs], when [e] is appended next. *)
Definition append_keeps_order (cap : Z) (xs : list Expr) (e : Expr) : Prop :=
  ∃ l l',
    append_all (create_expr_list cap) xs = Some l
    ∧ 0 ≤ size l ≤ capacity l ∧ holds l xs
    ∧ append_expr_list l e = Some l'
    ∧ size l' = size l + 1
    ∧ capacity l' = (if size l =? capacity l then capacity l * 2 else capacity l)
    ∧ expr l' !! Z.to_nat (size l) = Some (Some e)
    ∧ (∀ i : nat, (i < Z.to_nat (size l))%nat → expr l' !! i = expr l !! i)
    ∧ 0 ≤ size l' ≤ capacity l' ∧ holds l' (xs ++ [e]).

(** The list a call holds once its first loop has stored the two leaves. *)
Definition seeded (h : heap) (v0 v1 : float) : ExprList :=
  {| expr := (Some <$> leaves h v0 v1) ++ replicate 98 None;
     size := 2;
     capacity := 100 |}.

(** One pass of the operator loop: every left candidate, in the order it
    was read, with the right candidates generated for it, in the order they
    were read. *)
Definition group : Type := list (Expr * list Expr).

(** The operand pairs of a pass: left outer, right inner. *)
Definition pairs (g : group) : list (Expr * Expr) :=
  flat_map (fun lr => (fun right => (lr.1, right)) <$> lr.2) g.

(** The tuples the operator loop is to build: pass [i] uses [ops[i]]. *)
Definition plan (groups : list group) : list (nat * (Expr * Expr)) :=
  concat (imap (fun i g => (fun lr => (i, lr)) <$> pairs g) groups).

(** [e] is a fresh tuple of [ops[c.1]] over the operands [c.2]. *)
Definition built (ops : list op_func) (e : Expr) (c : nat * (Expr * Expr))
  : Prop :=
  ∃ p op, ops !! c.1 = Some op ∧ e = TupleExpr p op c.2.1 c.2.2.

(** [xs] is what some call [rec budget] returned. *)
Definition produced (rec : Z → M ExprList) (budget : Z) (xs : list Expr)
  : Prop :=
  ∃ h l h', rec budget h = Ok l h' ∧ contents l = xs.

(** The shape of the list [l] returned by a call on heap [h] with budget
    [limit] whose recursive calls went to [rec]: the leaves, then for each
    operator in turn a tuple for every pair of a left candidate (outer) and
    one of its right candidates (inner); the left candidates come from
    [rec (limit - 1)], the right candidates of [left] from
    [rec (right_limit limit left)]. *)
Definition enumerated (rec : Z → M ExprList) (ops : list op_func)
    (v0 v1 : float) (limit : Z) (h : heap) (l : ExprList) : Prop :=
  ∃ (groups : list group) (news : list Expr),
    length groups = Z.to_nat OPS_SIZE
    ∧ holds l (leaves h v0 v1 ++ news)
    ∧ Forall2 (built ops) news (plan groups)
    ∧ Forall (fun g : group =>
                produced rec (wrap (limit - 1)) (g.*1)
                ∧ Forall (fun lr => produced rec (right_limit limit lr.1) lr.2) g)
             groups.


(** The addresses of all nodes of a tree. *)
Fixpoint nodes (e : Expr) : list addr :=
  match e with
  | DoubleExpr p _ => [p]
  | TupleExpr p _ left_ right_ => p :: nodes left_ ++ nodes right_
  end.

(** A stand-in for the recursive calls, to run the loops of one call on
    candidates of both kinds: whatever the budget, it returns a list of a
    fresh leaf and a fresh tuple of two leaves. *)
Definition sample_rec (budget : Z) : M ExprList :=
  a <- create_double_expr M_E;;
  b <- create_double_expr M_E;;
  c <- create_double_expr M_PI;;
  t <- create_tuple_expr add b c;;
  l <- lift (append_expr_list (create_expr_list 100) a);;
  lift (append_expr_list l t).

(** A list holding one tuple whose left operand is itself a tuple, built
    with the constructors of the program. *)
Definition nested_list : M ExprList :=
  a <- create_double_expr M_E;;
  b <- create_double_expr M_PI;;
  c <- create_double_expr M_E;;
  t <- create_tuple_expr add a b;;
  u <- create_tuple_expr mul t c;;
  lift (append_expr_list (create_expr_list 100) u).

(** The infix symbol of an operator in the words of the specification. *)
Definition spec_symbol (op : op_func) : ascii :=
  match op with
  | add => "+"
  | sub => "-"
  | mul => "*"
  | truediv => "/"
  | power => "^"
  end%char.

(** A chain of [n] additions nested to the right, to measure the
    formatter against its buffers. *)
Fixpoint chain (n : nat) : Expr :=
  match n with
  | O => DoubleExpr 0 M_E
  | S n' => TupleExpr 0 add (DoubleExpr 0 M_E) (chain n')
  end.

(** * The caller and further vocabulary *)

(** ** [main] *)

Section Main.

(** [pow] and [floor] of <math.h>. *)
Variable pow : float → float → float.
Variable floor : float → float.

(** A line of output: the arguments of
    [printf("%s = %f\n", buffer, v)]. *)
Definition line : Type := (string * float)%type.

(** [main], the macro [LIMIT] taken as a parameter: generate, print every
    expression whose value has floor 114514, release the list, return 0.
    [buffer] has 256 bytes; printing it unwritten is a fault. *)
Definition main_with (limit : Z) (fuel : nat) : M (Z * list line) :=
  l <- expr_iter fuel main_ops main_nums limit;;
  out <- for_int (size l)
           (fun i out =>
              e <- slot l i;;
              let v := expr_eval pow e in
              if (floor v =? 114514)%float then
                buffer <- lift (into_buffer 256 (expr_repr e));;
                ret (out ++ [(buffer, v)])
              else ret out)
           [];;
  free_expr_list l;;;
  ret (0, out).

Definition main : nat → M (Z * list line) := main_with LIMIT.

End Main.

(** ** Vocabulary *)

(** What [free_expr_list] does for one element, and for the elements of a
    list one after the other. *)
Definition free_element (e : Expr) : M unit :=
  match e with
  | TupleExpr p _ left_ right_ =>
      deref p;;;
      free (expr_ptr left_);;;
      deref p;;;
      free (expr_ptr right_);;;
      free p
  | DoubleExpr _ _ => ret tt
  end.

Fixpoint free_elements (xs : list Expr) : M unit :=
  match xs with
  | [] => ret tt
  | e :: xs' => free_element e;;; free_elements xs'
  end.

(** The addresses the three calls of [free] are given for one element: the
    nodes of the two operands and the tuple, none for a leaf. *)
Definition released (e : Expr) : list addr :=
  match e with
  | TupleExpr p _ left_ right_ => [expr_ptr left_; expr_ptr right_; p]
  | DoubleExpr _ _ => []
  end.

(** The heap after the addresses [ps] were released one after the other. *)
Definition release (ps : list addr) (h : heap) : heap :=
  {| next := next h; freed := reverse ps ++ freed h |}.

(** A tuple of two leaves. *)
Definition flat_tuple (e : Expr) : Prop :=
  match e with
  | TupleExpr _ _ (DoubleExpr _ _) (DoubleExpr _ _) => True
  | _ => False
  end.

(** A tree with every address set to 0: what is left of a handle when the
    place of its nodes is forgotten. *)
Fixpoint shape (e : Expr) : Expr :=
  match e with
  | DoubleExpr _ value => DoubleExpr 0 value
  | TupleExpr _ op left_ right_ => TupleExpr 0 op (shape left_) (shape right_)
  end.

(** The number of tuples of a tree. *)
Fixpoint operators (e : Expr) : nat :=
  match e with
  | DoubleExpr _ _ => 0
  | TupleExpr _ _ left_ right_ => S (operators left_ + operators right_)
  end.

(** Every leaf of the tree compares equal to [M_E] or to [M_PI]. *)
Fixpoint constants_only (e : Expr) : Prop :=
  match e with
  | DoubleExpr _ value =>
      (value =? M_PI)%float = true ∨ (value =? M_E)%float = true
  | TupleExpr _ _ left_ right_ => constants_only left_ ∧ constants_only right_
  end.

(** A floor for the doubles from 0 up to 2^51, by rounding at 2^52. *)
Definition floor_small (x : float) : float :=
  let r := (x + 4503599627370496 - 4503599627370496)%float in
  if (x <? r)%float then (r - 1)%float else r.

(** A list holding one tuple of two new leaves, built with the
    constructors of the program. *)
Definition build_flat (op : op_func) (a b : float) : M ExprList :=
  x <- create_double_expr a;;
  y <- create_double_expr b;;
  t <- create_tuple_expr op x y;;
  lift (append_expr_list (create_expr_list 100) t).

(** * The recursive calls of [expr_iter], recorded

    A call that does not return shows in no result, so the budget it was
    given is read off a record of the calls: the same function once more,
    every recursive call preceded by a note of it.  The notes outlive a
    run that does not return. *)













(** The claim of the formatter as it was written, at one tuple: whatever
    texts the two operands are written as, the tuple is written as these
    texts around the symbol of its operator. *)
Definition tuple_written_from_operands (p : addr) (op : op_func)
    (left_ right_ : Expr) : Prop :=
  ∀ sl sr,
    expr_repr left_ = Some sl → expr_repr right_ = Some sr →
    expr_repr (TupleExpr p op left_ right_)
    = Some ("(" ++ sl ++ " " ++ String (spec_symbol op) (" " ++ sr ++ ")"))%string.

(** * Lemmas *)

(** ** Machine integers *)

Lemma wrap_id (z : Z) : -2147483648 ≤ z ≤ INT_MAX → wrap z = z.
Proof.
  unfold wrap, INT_MAX. intros Hz.
  rewrite Z.mod_small by lia. lia.
Qed.

(** ** Expression lists *)

Lemma create_expr_list_ok (cap : Z) :
  0 ≤ cap ≤ INT_MAX → list_ok (create_expr_list cap).
Proof.
  intros Hcap. unfold list_ok, create_expr_list; simpl.
  rewrite length_replicate. lia.
Qed.

Lemma create_expr_list_holds (cap : Z) : holds (create_expr_list cap) [].
Proof. split; reflexivity. Qed.

(** What one store does to a list that has a free slot. *)
Lemma store_next_spec (l : ExprList) (e : Expr) (xs : list Expr) :
  0 ≤ size l < Z.of_nat (length (expr l)) →
  size l < INT_MAX →
  holds l xs →
  ∃ l', store_next l e = Some l'
        ∧ size l' = size l + 1
        ∧ capacity l' = capacity l
        ∧ length (expr l') = length (expr l)
        ∧ expr l' !! Z.to_nat (size l) = Some (Some e)
        ∧ (∀ i : nat, i ≠ Z.to_nat (size l) → expr l' !! i = expr l !! i)
        ∧ holds l' (xs ++ [e]).
Proof.
  intros Hsz Hmax [Hlen Hused]. unfold store_next.
  rewrite decide_True by done.
  eexists; split; [reflexivity|]; simpl.
  rewrite wrap_id by (unfold INT_MAX in *; lia).
  assert (Hn : (Z.to_nat (size l) < length (expr l))%nat) by lia.
  repeat split.
  - apply length_insert.
  - by apply list_lookup_insert_eq.
  - intros i Hi. by apply list_lookup_insert_ne.
  - simpl. rewrite length_app; simpl. lia.
  - unfold used in *; simpl.
    replace (Z.to_nat (size l + 1)) with (S (Z.to_nat (size l))) by lia.
    rewrite (take_S_r _ _ (Some e)) by by apply list_lookup_insert_eq.
    rewrite take_insert_ge by lia.
    rewrite Hused, fmap_app. reflexivity.
Qed.

(** Growing keeps the stored elements and doubles the slots. *)
Lemma grow_spec (l : ExprList) (xs : list Expr) :
  list_ok l → 1 ≤ capacity l → capacity l * 2 ≤ INT_MAX → holds l xs →
  list_ok (grow l) ∧ capacity (grow l) = capacity l * 2
  ∧ size (grow l) = size l ∧ holds (grow l) xs
  ∧ (∀ i : nat, (i < length (expr l))%nat → expr (grow l) !! i = expr l !! i).
Proof.
  intros (Hsz & _ & Hlen) Hcap Hmax [Hn Hused].
  unfold grow, list_ok, holds, used; simpl.
  rewrite wrap_id by (unfold INT_MAX in *; lia).
  rewrite length_resize.
  rewrite resize_ge by lia.
  repeat split; try lia.
  - rewrite take_app_le by lia. exact Hused.
  - intros i Hi. by rewrite lookup_app_l.
Qed.

(** One call of [append_expr_list] on a list in use. *)
Lemma append_expr_list_spec (l : ExprList) (e : Expr) (xs : list Expr) :
  list_ok l → 1 ≤ capacity l ≤ INT_MAX → size l < 1073741824 → holds l xs →
  ∃ l', append_expr_list l e = Some l'
        ∧ list_ok l' ∧ 1 ≤ capacity l' ≤ INT_MAX
        ∧ size l' = size l + 1
        ∧ capacity l' = (if size l =? capacity l then capacity l * 2 else capacity l)
        ∧ expr l' !! Z.to_nat (size l) = Some (Some e)
        ∧ (∀ i : nat, (i < Z.to_nat (size l))%nat → expr l' !! i = expr l !! i)
        ∧ holds l' (xs ++ [e]).
Proof.
  intros Hok Hcap Hsz Hxs. unfold append_expr_list.
  pose proof Hok as (Hs0 & _ & Hlen).
  destruct (Z.eqb_spec (size l) (capacity l)) as [Heq|Hne].
  - destruct (grow_spec l xs) as ((Hsz' & _ & Hlen') & Hc & Hs & Hh & Hpre);
      [done | lia | unfold INT_MAX; lia | done |].
    destruct (store_next_spec (grow l) e xs)
      as (l' & -> & Hs' & Hc' & Hl' & Hat & Hoth & Hh');
      [lia | unfold INT_MAX; lia | done |].
    exists l'. rewrite Hs in *. rewrite Hc in *.
    split_and!; try done; try (unfold list_ok, INT_MAX in *; lia).
    intros i Hi. rewrite Hoth by lia. apply Hpre. lia.
  - destruct (store_next_spec l e xs)
      as (l' & -> & Hs' & Hc' & Hl' & Hat & Hoth & Hh');
      [lia | unfold INT_MAX in *; lia | done |].
    exists l'.
    split_and!; try done; try (unfold list_ok, INT_MAX in *; lia).
    intros i Hi. apply Hoth. lia.
Qed.

(** A sequence of appends on a list in use. *)
Lemma append_all_spec (l : ExprList) (xs ys : list Expr) :
  list_ok l → 1 ≤ capacity l ≤ INT_MAX → holds l xs →
  Z.of_nat (length (xs ++ ys)) ≤ 1073741824 →
  ∃ l', append_all l ys = Some l'
        ∧ list_ok l' ∧ 1 ≤ capacity l' ≤ INT_MAX ∧ holds l' (xs ++ ys).
Proof.
  revert l xs. induction ys as [|y ys IH]; intros l xs Hok Hcap Hxs Hlen.
  - exists l. rewrite app_nil_r. done.
  - rewrite length_app in Hlen; simpl in Hlen.
    destruct (append_expr_list_spec l y xs) as (l1 & Happ & Hok1 & Hcap1 & _ & _ & _ & _ & Hh1);
      [done | done | destruct Hxs; lia | done |].
    destruct (IH l1 (xs ++ [y])) as (l' & Hall & Hok' & Hcap' & Hh');
      [done | done | done | rewrite !length_app; simpl; lia |].
    exists l'. simpl. rewrite Happ. rewrite <- app_assoc in Hh'. done.
Qed.

(** What a successful append did, read backwards. *)
Lemma append_expr_list_inv (l l' : ExprList) (e : Expr) (xs : list Expr) :
  list_ok l → holds l xs → append_expr_list l e = Some l' →
  list_ok l' ∧ holds l' (xs ++ [e]).
Proof.
  intros (Hsz & Hcap & Hlen) Hxs. unfold append_expr_list.
  set (l1 := if size l =? capacity l then grow l else l).
  assert (Hl1 : size l1 = size l ∧ (0 ≤ size l1 < Z.of_nat (length (expr l1)) →
            list_ok l1 ∧ size l1 < capacity l1 ∧ holds l1 xs)).
  { subst l1. destruct (Z.eqb_spec (size l) (capacity l)) as [Heq|Hne].
    - split; [done|]. simpl. rewrite length_resize. intros Hin.
      assert (Hw : wrap (capacity l * 2) ≤ INT_MAX).
      { unfold wrap, INT_MAX.
        pose proof (Z.mod_pos_bound (capacity l * 2 + 2147483648) 4294967296).
        lia. }
      unfold list_ok, holds, used; simpl. rewrite length_resize.
      split_and!; try lia; try apply Hxs.
      rewrite resize_ge by lia. rewrite take_app_le by lia. apply Hxs.
    - split; [done|]. intros Hin. unfold list_ok. split_and!; try done; lia. }
  destruct Hl1 as [Hs1 Hl1].
  unfold store_next. case_decide as Hin; [|done].
  destruct (Hl1 Hin) as ((Hsz1 & Hcap1 & Hlen1) & Hlt & Hh1).
  injection 1 as <-.
  destruct (store_next_spec l1 e xs) as (l2 & Hst & Hs2 & Hc2 & Hl2 & _ & _ & Hh2);
    [done | lia | done |].
  unfold store_next in Hst. rewrite decide_True in Hst by done.
  injection Hst as <-.
  split; [|done]. unfold list_ok in *. simpl in *. rewrite length_insert. 
  rewrite Hs2. lia.
Qed.

Lemma omap_id_Some {A} (xs : list A) : omap id (Some <$> xs) = xs.
Proof. induction xs as [|x xs IH]; [done|]. simpl. f_equal. exact IH. Qed.

Lemma holds_contents (l : ExprList) (xs : list Expr) :
  holds l xs → contents l = xs.
Proof. intros [_ Hu]. unfold contents. rewrite Hu. apply omap_id_Some. Qed.

(** A list whose first [size] slots were all read holds what was read. *)
Lemma read_all_contents (l : ExprList) (xs : list Expr) :
  length xs = Z.to_nat (size l) →
  take (length xs) (expr l) = Some <$> xs →
  contents l = xs.
Proof.
  intros Hlen Htake. unfold contents, used.
  rewrite <- Hlen, Htake. apply omap_id_Some.
Qed.

(** ** The monad *)

Lemma bind_Ok {A B} (m : M A) (k : A → M B) h a h' :
  m h = Ok a h' → bind m k h = k a h'.
Proof. unfold bind. by intros ->. Qed.

Lemma bind_OutOfFuel {A B} (m : M A) (k : A → M B) h :
  m h = OutOfFuel → bind m k h = OutOfFuel.
Proof. unfold bind. by intros ->. Qed.

(** A bind that ends well went through a first step that ended well. *)
Lemma bind_inv {A B} (m : M A) (k : A → M B) h b h'' :
  bind m k h = Ok b h'' → ∃ a h', m h = Ok a h' ∧ k a h' = Ok b h''.
Proof. unfold bind. destruct (m h); [eauto | done | done]. Qed.

Lemma for_loop_S {St} n i (body : Z → St → M St) s :
  for_loop (S n) i body s = bind (body i s) (for_loop n (i + 1) body).
Proof. reflexivity. Qed.

(** Reading successful runs backwards. *)

Lemma ret_inv {A} (a b : A) h h' : ret a h = Ok b h' → b = a ∧ h' = h.
Proof. unfold ret. by injection 1 as -> ->. Qed.

Lemma lift_inv {A} (o : option A) a h h' :
  lift o h = Ok a h' → o = Some a ∧ h' = h.
Proof. destruct o; simpl; [|done]. unfold ret. by injection 1 as -> ->. Qed.

Lemma index_inv {A} (a : list A) i x h h' :
  index a i h = Ok x h' → 0 ≤ i ∧ a !! Z.to_nat i = Some x ∧ h' = h.
Proof.
  unfold index. case_decide; [|done].
  intros [? ?]%lift_inv. done.
Qed.

Lemma slot_inv (l : ExprList) i e h h' :
  slot l i h = Ok e h' → 0 ≤ i ∧ expr l !! Z.to_nat i = Some (Some e) ∧ h' = h.
Proof.
  unfold slot. intros (s & h1 & Hidx & Hlift)%bind_inv.
  apply index_inv in Hidx as (? & ? & ->).
  apply lift_inv in Hlift as [-> ->]. done.
Qed.

Lemma create_tuple_expr_inv op left_ right_ e h h' :
  create_tuple_expr op left_ right_ h = Ok e h' →
  e = TupleExpr (next h) op left_ right_.
Proof. unfold create_tuple_expr, bind, malloc, ret. by injection 1 as <- _. Qed.

(** A loop that ends well, by an invariant over the iterations done. *)
Lemma for_loop_inv {St} (P : nat → St → heap → Prop) (body : Z → St → M St) :
  ∀ (n : nat) (i0 : Z) (s : St) (h : heap) (s' : St) (h' : heap),
    for_loop n i0 body s h = Ok s' h' →
    P 0%nat s h →
    (∀ (k : nat) s1 h1 s2 h2,
        (k < n)%nat → P k s1 h1 →
        body (i0 + Z.of_nat k) s1 h1 = Ok s2 h2 → P (S k) s2 h2) →
    P n s' h'.
Proof.
  intros n. revert P. induction n as [|n IH]; intros P i0 s h s' h' Hrun H0 Hstep.
  - apply ret_inv in Hrun as [-> ->]. exact H0.
  - rewrite for_loop_S in Hrun.
    apply bind_inv in Hrun as (s1 & h1 & Hbody & Hrest).
    apply (IH (fun k => P (S k)) (i0 + 1) s1 h1 s' h' Hrest).
    + apply (Hstep 0%nat s h); [lia | exact H0 |].
      by rewrite Z.add_0_r.
    + intros k s2 h2 s3 h3 Hk HP Hb.
      apply (Hstep (S k) s2 h2); [lia | exact HP |].
      by replace (i0 + Z.of_nat (S k)) with (i0 + 1 + Z.of_nat k) by lia.
Qed.

(** ** The generator: budgets 0 and 1 *)

Lemma seeded_ok h v0 v1 : list_ok (seeded h v0 v1).
Proof. unfold list_ok, INT_MAX; simpl. lia. Qed.

Lemma seeded_holds h v0 v1 : holds (seeded h v0 v1) (leaves h v0 v1).
Proof. split; reflexivity. Qed.

(** The first loop of [expr_iter]: one leaf per entry of [nums]. *)
Lemma seed_leaves (v0 v1 : float) (h : heap) :
  for_int NUMS_SIZE
    (fun i l =>
       v <- index [v0; v1] i;;
       e <- create_double_expr v;;
       lift (append_expr_list l e))
    (create_expr_list 100) h
  = Ok (seeded h v0 v1) (after_leaves h).
Proof. reflexivity. Qed.

Lemma expr_iter_0 (fuel : nat) (ops : list op_func) (nums : list float) h :
  expr_iter (S fuel) ops nums 0 h = Ok (create_expr_list 100) h.
Proof. reflexivity. Qed.

Lemma expr_iter_1 (fuel : nat) (ops : list op_func) (v0 v1 : float) h :
  expr_iter (S (S fuel)) ops [v0; v1] 1 h
  = Ok (seeded h v0 v1) (after_leaves h).
Proof. reflexivity. Qed.

(** At budget 1 a call either runs out of fuel or returns the two leaves. *)
Lemma expr_iter_1_cases (fuel : nat) (ops : list op_func) (v0 v1 : float) h :
  expr_iter fuel ops [v0; v1] 1 h = OutOfFuel
  ∨ expr_iter fuel ops [v0; v1] 1 h = Ok (seeded h v0 v1) (after_leaves h).
Proof.
  destruct fuel as [|[|fuel]].
  - by left.
  - by left.
  - right. apply expr_iter_1.
Qed.

(** ** The generator: budgets from 2 on *)

(** No amount of fuel lets a call with a budget of 2 or more return: the
    right operands of a leaf are generated with the budget of the call
    itself. *)
Lemma expr_iter_out_of_fuel (fuel : nat) (ops : list op_func) (v0 v1 : float) :
  ∀ (limit : Z) (h : heap),
    2 ≤ limit ≤ INT_MAX → expr_iter fuel ops [v0; v1] limit h = OutOfFuel.
Proof.
  induction fuel as [|fuel IH]; intros limit h Hlimit; [reflexivity|].
  simpl. unfold expr_iter_body.
  destruct (Z.eqb_spec limit 0) as [|_]; [lia|].
  erewrite bind_Ok by apply seed_leaves.
  apply bind_OutOfFuel.
  unfold for_int. change (Z.to_nat OPS_SIZE) with 5%nat.
  rewrite for_loop_S. apply bind_OutOfFuel.
  rewrite (wrap_id (limit - 1)) by (unfold INT_MAX in *; lia).
  destruct (decide (limit = 2)) as [->|Hne].
  - change (2 - 1) with 1.
    destruct (expr_iter_1_cases fuel ops v0 v1 (after_leaves h)) as [Hout|Hok].
    + by apply bind_OutOfFuel.
    + erewrite bind_Ok by exact Hok.
      apply bind_OutOfFuel.
      change (Z.to_nat (size (seeded (after_leaves h) v0 v1))) with 2%nat.
      rewrite for_loop_S. apply bind_OutOfFuel.
      erewrite bind_Ok by reflexivity.
      apply bind_OutOfFuel.
      apply IH. split; by vm_compute.
  - apply bind_OutOfFuel. apply IH. lia.
Qed.


(** ** The three nested loops of [expr_iter] *)

(** The innermost loop: one tuple per right candidate, in order. *)
Lemma inner_loop_inv (ops : list op_func) (i : Z) (left_ : Expr)
    (right_list l0 l1 : ExprList) (h0 h1 : heap) (base : list Expr) :
  for_int (size right_list)
    (fun k l1 =>
       right <- slot right_list k;;
       op <- index ops i;;
       e <- create_tuple_expr op left_ right;;
       lift (append_expr_list l1 e))
    l0 h0 = Ok l1 h1 →
  list_ok l0 → holds l0 base →
  ∃ news,
    list_ok l1 ∧ holds l1 (base ++ news)
    ∧ Forall2 (fun e right =>
                 ∃ p op, ops !! Z.to_nat i = Some op
                         ∧ e = TupleExpr p op left_ right)
              news (contents right_list).
Proof.
  intros Hrun Hok Hbase. unfold for_int in Hrun.
  pose (R := fun (e right : Expr) =>
               ∃ p op, ops !! Z.to_nat i = Some op
                       ∧ e = TupleExpr p op left_ right).
  apply (for_loop_inv (fun k l (_ : heap) =>
           ∃ rs news, length rs = k
                      ∧ take k (expr right_list) = Some <$> rs
                      ∧ list_ok l ∧ holds l (base ++ news)
                      ∧ Forall2 R news rs)) in Hrun.
  - destruct Hrun as (rs & news & Hlen & Htake & Hok1 & Hh1 & HR).
    exists news. split_and!; [done | done |].
    rewrite (read_all_contents right_list rs); [done | done |].
    by rewrite Hlen.
  - exists [], []. rewrite app_nil_r. split_and!; try done; constructor.
  - intros k s1 h2 s2 h3 Hk (rs & news & Hlen & Htake & Hok1 & Hh1 & HR) Hbody.
    apply bind_inv in Hbody as (right & h4 & Hslot & Hbody).
    apply slot_inv in Hslot as (_ & Hright & ->).
    apply bind_inv in Hbody as (op & h5 & Hop & Hbody).
    apply index_inv in Hop as (_ & Hop & ->).
    apply bind_inv in Hbody as (e & h6 & He & Happ).
    apply create_tuple_expr_inv in He.
    apply lift_inv in Happ as [Happ _].
    destruct (append_expr_list_inv s1 s2 e (base ++ news) Hok1 Hh1 Happ)
      as [Hok2 Hh2].
    replace (Z.to_nat (0 + Z.of_nat k)) with k in Hright by lia.
    exists (rs ++ [right]), (news ++ [e]).
    split_and!.
    + rewrite length_app; simpl. lia.
    + rewrite (take_S_r _ _ _ Hright), Htake, fmap_app. done.
    + done.
    + by rewrite app_assoc.
    + apply Forall2_app; [done|]. constructor; [|constructor].
      exists (next h2), op. done.
Qed.

(** The middle loop: for every left candidate, in order, the tuples of its
    right candidates. *)
Lemma middle_loop_inv (rec : Z → M ExprList) (ops : list op_func) (i limit : Z)
    (left_list l0 l1 : ExprList) (h0 h1 : heap) (base : list Expr) :
  for_int (size left_list)
    (fun j l =>
       left <- slot left_list j;;
       right_list <- rec (right_limit limit left);;
       l <- for_int (size right_list)
              (fun k l =>
                 right <- slot right_list k;;
                 op <- index ops i;;
                 e <- create_tuple_expr op left right;;
                 lift (append_expr_list l e))
              l;;
       free_expr_list right_list;;;
       ret l)
    l0 h0 = Ok l1 h1 →
  list_ok l0 → holds l0 base →
  ∃ (g : group) (news : list Expr),
    g.*1 = contents left_list
    ∧ Forall (fun lr => produced rec (right_limit limit lr.1) lr.2) g
    ∧ list_ok l1 ∧ holds l1 (base ++ news)
    ∧ Forall2 (fun e lr =>
                 ∃ p op, ops !! Z.to_nat i = Some op
                         ∧ e = TupleExpr p op lr.1 lr.2)
              news (pairs g).
Proof.
  intros Hrun Hok Hbase. unfold for_int at 1 in Hrun.
  pose (R := fun (e : Expr) (lr : Expr * Expr) =>
               ∃ p op, ops !! Z.to_nat i = Some op
                       ∧ e = TupleExpr p op lr.1 lr.2).
  apply (for_loop_inv (fun j l (_ : heap) =>
           ∃ (g : group) news,
             length g = j
             ∧ take j (expr left_list) = Some <$> g.*1
             ∧ Forall (fun lr => produced rec (right_limit limit lr.1) lr.2) g
             ∧ list_ok l ∧ holds l (base ++ news)
             ∧ Forall2 R news (pairs g))) in Hrun.
  - destruct Hrun as (g & news & Hlen & Htake & Hg & Hok1 & Hh1 & HR).
    exists g, news. split_and!; try done.
    symmetry. apply read_all_contents.
    + by rewrite length_fmap.
    + by rewrite length_fmap, Hlen.
  - exists [], []. rewrite app_nil_r. split_and!; try done; constructor.
  - intros j s1 h2 s2 h3 Hj (g & news & Hlen & Htake & Hg & Hok1 & Hh1 & HR) Hbody.
    apply bind_inv in Hbody as (left & h4 & Hslot & Hbody).
    apply slot_inv in Hslot as (_ & Hleft & ->).
    apply bind_inv in Hbody as (right_list & h5 & Hrec & Hbody).
    apply bind_inv in Hbody as (l2 & h6 & Hinner & Hbody).
    apply bind_inv in Hbody as (u & h7 & _ & Hret).
    apply ret_inv in Hret as [-> _].
    destruct (inner_loop_inv ops i left right_list s1 l2 h5 h6 (base ++ news)
                Hinner Hok1 Hh1) as (news2 & Hok2 & Hh2 & HR2).
    replace (Z.to_nat (0 + Z.of_nat j)) with j in Hleft by lia.
    exists (g ++ [(left, contents right_list)]), (news ++ news2).
    split_and!.
    + rewrite length_app; simpl. lia.
    + rewrite (take_S_r _ _ _ Hleft), Htake, fmap_app, fmap_app. done.
    + apply Forall_app. split; [done|]. constructor; [|constructor].
      exists h2, right_list, h5. done.
    + done.
    + by rewrite app_assoc.
    + unfold pairs. rewrite flat_map_app. simpl. rewrite app_nil_r.
      apply Forall2_app; [done|].
      apply Forall2_fmap_r. simpl. exact HR2.
Qed.

Lemma plan_snoc (groups : list group) (g : group) :
  plan (groups ++ [g])
  = plan groups ++ ((fun lr => (length groups, lr)) <$> pairs g).
Proof.
  unfold plan. rewrite imap_app, concat_app. simpl.
  by rewrite app_nil_r, Nat.add_0_r.
Qed.

(** The whole body: what a call that returns has built. *)
Lemma expr_iter_body_inv (rec : Z → M ExprList) (ops : list op_func)
    (v0 v1 : float) (limit : Z) (h h' : heap) (l : ExprList) :
  limit ≠ 0 →
  expr_iter_body rec ops [v0; v1] limit h = Ok l h' →
  enumerated rec ops v0 v1 limit h l.
Proof.
  intros Hlimit Hrun. unfold expr_iter_body in Hrun.
  destruct (Z.eqb_spec limit 0) as [|_]; [done|].
  apply bind_inv in Hrun as (l2 & h2 & Hseed & Hrun).
  rewrite seed_leaves in Hseed. injection Hseed as <- <-.
  apply bind_inv in Hrun as (l3 & h3 & Hloop & Hret).
  apply ret_inv in Hret as [-> _].
  unfold for_int at 1 in Hloop.
  apply (for_loop_inv (fun i l (_ : heap) =>
           ∃ (groups : list group) news,
             length groups = i
             ∧ list_ok l ∧ holds l (leaves h v0 v1 ++ news)
             ∧ Forall2 (built ops) news (plan groups)
             ∧ Forall (fun g : group =>
                         produced rec (wrap (limit - 1)) (g.*1)
                         ∧ Forall (fun lr =>
                                     produced rec (right_limit limit lr.1) lr.2) g)
                      groups)) in Hloop.
  - destruct Hloop as (groups & news & Hlen & _ & Hh & Hb & Hg).
    exists groups, news. done.
  - exists [], []. rewrite app_nil_r.
    split_and!; [done | apply seeded_ok | apply seeded_holds
                | constructor | constructor].
  - intros i s1 h4 s2 h5 Hi (groups & news & Hlen & Hok1 & Hh1 & Hb & Hg) Hbody.
    apply bind_inv in Hbody as (left_list & h6 & Hrec & Hbody).
    apply bind_inv in Hbody as (l4 & h7 & Hmid & Hbody).
    apply bind_inv in Hbody as (u & h8 & _ & Hret).
    apply ret_inv in Hret as [-> _].
    destruct (middle_loop_inv rec ops (0 + Z.of_nat i) limit left_list s1 l4 h6 h7
                (leaves h v0 v1 ++ news) Hmid Hok1 Hh1)
      as (g & news2 & Hfst & Hrights & Hok2 & Hh2 & HR).
    exists (groups ++ [g]), (news ++ news2).
    split_and!.
    + rewrite length_app; simpl. lia.
    + done.
    + by rewrite app_assoc.
    + rewrite plan_snoc. apply Forall2_app; [done|].
      apply Forall2_fmap_r.
      eapply Forall2_impl; [exact HR|].
      intros e lr (p & op & Hop & ->). exists p, op. simpl.
      replace (Z.to_nat (0 + Z.of_nat i)) with i in Hop by lia.
      by rewrite Hlen.
    + apply Forall_app. split; [done|]. constructor; [|constructor].
      split; [|done]. exists h4, left_list, h6. by rewrite Hfst.
Qed.

(** [expr_iter] itself: the recursive calls of a call with fuel [S fuel]
    are the calls with fuel [fuel]. *)
Lemma expr_iter_enumerated (fuel : nat) (ops : list op_func) (v0 v1 : float)
    (limit : Z) (h h' : heap) (l : ExprList) :
  limit ≠ 0 →
  expr_iter (S fuel) ops [v0; v1] limit h = Ok l h' →
  enumerated (expr_iter fuel ops [v0; v1]) ops v0 v1 limit h l.
Proof. apply expr_iter_body_inv. Qed.


(** ** The recorded run is the run *)







(** ** Every recorded call is as specified *)







(** ** The call made for a leaf *)





(** * Statements of the specification *)

(** ** Termination *)

(** C1 (the code departs from the specification): a call with a budget of
    0 or 1 returns once it has fuel for its recursion depth; a call with a
    budget of 2 or more runs out of any amount of fuel, whatever the operator
    array and the two constants are: the right candidates of a leaf are
    generated with the undecremented budget of the call, so the same call
    recurs. *)
Theorem expr_iter_returns_only_below_2 (ops : list op_func) (v0 v1 : float)
    (limit : Z) (h : heap) :
  0 ≤ limit ≤ INT_MAX →
  (limit ≤ 1 → ∃ l h', expr_iter 2 ops [v0; v1] limit h = Ok l h')
  ∧ (2 ≤ limit → ∀ fuel, expr_iter fuel ops [v0; v1] limit h = OutOfFuel).
Proof.
  intros Hlimit. split.
  - intros Hle. assert (limit = 0 ∨ limit = 1) as [-> | ->] by lia.
    + eexists _, _. apply expr_iter_0.
    + eexists _, _. apply expr_iter_1.
  - intros Hge fuel. apply expr_iter_out_of_fuel. lia.
Qed.

Lemma expr_iter_returns_only_below_2_witness :
  (LIMIT ≤ 1 → ∃ l h', expr_iter 2 main_ops main_nums LIMIT heap0 = Ok l h')
  ∧ (2 ≤ LIMIT →
     ∀ fuel, expr_iter fuel main_ops main_nums LIMIT heap0 = OutOfFuel).
Proof.
  apply (expr_iter_returns_only_below_2 main_ops M_E M_PI LIMIT heap0).
  unfold LIMIT, INT_MAX. lia.
Defined.

(** ** Budget 0 and budget 1 *)

(** C4: with budget 0 a call returns an empty list, whatever the operator
    and constant arrays are, and allocates no node. *)
Theorem expr_iter_budget_0 (fuel : nat) (ops : list op_func)
    (nums : list float) (h : heap) :
  ∃ l, expr_iter (S fuel) ops nums 0 h = Ok l h
       ∧ size l = 0 ∧ holds l [] ∧ contents l = [].
Proof.
  exists (create_expr_list 100). split; [apply expr_iter_0|].
  split_and!; [done | apply create_expr_list_holds | done].
Qed.

(** C5: with budget 1 a call returns one leaf per entry of the constant
    array, in the order of the array, and nothing else. *)
Theorem expr_iter_budget_1 (fuel : nat) (ops : list op_func) (v0 v1 : float)
    (h : heap) :
  ∃ l h', expr_iter (S (S fuel)) ops [v0; v1] 1 h = Ok l h'
          ∧ size l = NUMS_SIZE
          ∧ holds l [DoubleExpr (next h) v0; DoubleExpr (S (next h)) v1]
          ∧ Forall (fun e => type e = 0) (contents l).
Proof.
  exists (seeded h v0 v1), (after_leaves h).
  split; [apply expr_iter_1|].
  split_and!; [done | apply seeded_holds |].
  rewrite (holds_contents _ _ (seeded_holds h v0 v1)).
  repeat constructor.
Qed.

(** ** Order of the enumeration *)

(** C6 (the code departs from the specification): for a budget of 2 or
    more no list is returned at all, and whenever a call with a budget of
    at least 1 returns, the list holds the two leaves and nothing else: no
    combination of a left and a right candidate is ever in a returned
    list. *)
Theorem no_combination_returned (fuel : nat) (ops : list op_func)
    (v0 v1 : float) (limit : Z) (h : heap) :
  1 ≤ limit ≤ INT_MAX →
  (2 ≤ limit → expr_iter fuel ops [v0; v1] limit h = OutOfFuel)
  ∧ (∀ l h', expr_iter fuel ops [v0; v1] limit h = Ok l h' →
             limit = 1 ∧ holds l (leaves h v0 v1)
             ∧ Forall (fun e => type e = 0) (contents l)).
Proof.
  intros Hlimit. split.
  - intros Hge. apply expr_iter_out_of_fuel. lia.
  - intros l h' Hrun.
    destruct (decide (2 ≤ limit)) as [Hge|Hlt].
    { rewrite expr_iter_out_of_fuel in Hrun by lia. discriminate. }
    assert (limit = 1) as -> by lia.
    destruct (expr_iter_1_cases fuel ops v0 v1 h) as [Hout|Hok];
      rewrite Hrun in *; [discriminate|].
    injection Hok as -> ->.
    split_and!; [done | apply seeded_holds |].
    rewrite (holds_contents _ _ (seeded_holds h v0 v1)). repeat constructor.
Qed.

Lemma no_combination_returned_witness :
  (2 ≤ 2 → expr_iter 9 main_ops main_nums 2 heap0 = OutOfFuel)
  ∧ (∀ l h', expr_iter 9 main_ops main_nums 2 heap0 = Ok l h' →
             2 = 1 ∧ holds l (leaves heap0 M_E M_PI)
             ∧ Forall (fun e => type e = 0) (contents l)).
Proof.
  apply (no_combination_returned 9 main_ops M_E M_PI 2 heap0).
  unfold INT_MAX. lia.
Defined.

(** ** Budget of the right operands *)



(** ** Monotonicity in the budget *)

(** C9 (the code departs from the specification): with the arrays of
    [main], budget 1 yields the two leaves, and budget 2 yields no list at
    all, with any amount of fuel: what budget 1 produced is not among what
    budget 2 produces. *)
Theorem budget_2_loses_budget_1 :
  (∃ l h', expr_iter 2 main_ops main_nums 1 heap0 = Ok l h'
           ∧ holds l [DoubleExpr 0 M_E; DoubleExpr 1 M_PI])
  ∧ (∀ fuel h, expr_iter fuel main_ops main_nums 2 h = OutOfFuel).
Proof.
  split.
  - eexists _, _. split; [apply expr_iter_1|]. apply seeded_holds.
  - intros fuel h. apply expr_iter_out_of_fuel. unfold INT_MAX. lia.
Qed.

(** ** Releasing the nodes *)

Lemma for_loop_skip {St} (body : Z → St → M St) (s : St) (h : heap) :
  ∀ (n : nat) (i0 : Z),
    (∀ k : nat, (k < n)%nat → body (i0 + Z.of_nat k) s h = Ok s h) →
    for_loop n i0 body s h = Ok s h.
Proof.
  induction n as [|n IH]; intros i0 Hbody; [reflexivity|].
  rewrite for_loop_S.
  erewrite bind_Ok; [|rewrite <- (Z.add_0_r i0); apply (Hbody 0%nat); lia].
  apply IH. intros k Hk.
  replace (i0 + 1 + Z.of_nat k) with (i0 + Z.of_nat (S k)) by lia.
  apply Hbody. lia.
Qed.

(** [free_expr_list] on a list of leaves releases nothing. *)
Lemma free_expr_list_of_leaves (l : ExprList) (xs : list Expr) (h : heap) :
  holds l xs → Forall (fun e => type e = 0) xs →
  free_expr_list l h = Ok tt h.
Proof.
  intros [Hsize Hused] Hleaves. unfold free_expr_list, for_int.
  apply for_loop_skip. intros k Hk.
  assert (Hk' : (k < length xs)%nat) by lia.
  destruct (lookup_lt_is_Some_2 xs k Hk') as [e He].
  assert (Hslot : expr l !! k = Some (Some e)).
  { rewrite <- (lookup_take_lt _ (Z.to_nat (size l))) by lia.
    unfold used in Hused. rewrite Hused, list_lookup_fmap, He. done. }
  unfold slot, index, bind. rewrite decide_True by lia.
  replace (Z.to_nat (0 + Z.of_nat k)) with k by lia.
  rewrite Hslot. simpl.
  rewrite Forall_lookup in Hleaves. specialize (Hleaves k e He).
  destruct e; [reflexivity | discriminate].
Qed.

(** C3 (the code departs from the specification): with the arrays of
    [main] and budget 1, the list returned holds the two leaves; after
    [free_expr_list] on it every node of every tree it held is still
    allocated: none was released. *)
Theorem generate_then_free_leaks :
  ∃ l h',
    generate_then_free 2 1 heap0 = Ok l h'
    ∧ contents l = [DoubleExpr 0 M_E; DoubleExpr 1 M_PI]
    ∧ Forall (live h') (flat_map nodes (contents l))
    ∧ freed h' = [].
Proof.
  eexists _, _. split; [vm_compute; reflexivity|].
  split; [reflexivity|]. split; [|reflexivity].
  change (Forall (live {| next := 2; freed := [] |}) [0; 1]%nat).
  repeat constructor; simpl; try lia; apply not_elem_of_nil.
Qed.

(** The release is one level deep: of a tuple whose left operand is a
    tuple, the root and its two children are released, the grandchildren
    (addresses 0 and 1) stay allocated. *)
Example free_expr_list_one_level :
  ∃ l h h',
    nested_list heap0 = Ok l h
    ∧ contents l
      = [TupleExpr 4 mul (TupleExpr 3 add (DoubleExpr 0 M_E) (DoubleExpr 1 M_PI))
                         (DoubleExpr 2 M_E)]
    ∧ free_expr_list l h = Ok tt h'
    ∧ freed h' = [4; 2; 3]%nat.
Proof. eexists _, _, _. split_and!; vm_compute; reflexivity. Qed.

(** Operands moved into new tuples are released with the candidate list
    they came from: in a call whose recursive calls return a leaf and a
    tuple, the fourth element returned has a right operand whose node was
    released by [free_expr_list(right_list)]. *)
Example moved_operand_released :
  ∃ l h' p op left_ right_,
    expr_iter_body sample_rec main_ops main_nums 3 heap0 = Ok l h'
    ∧ contents l !! 3%nat = Some (TupleExpr p op left_ right_)
    ∧ expr_ptr right_ ∈ freed h'.
Proof.
  eexists _, _, _, _, _, _. split_and!; [vm_compute; reflexivity | reflexivity |].
  apply (bool_decide_unpack _). vm_compute. exact I.
Qed.

(** A left candidate is shared by all the tuples built for it, so
    releasing the list returned by such a call releases it twice. *)
Example shared_left_released_twice :
  (l <- expr_iter_body sample_rec main_ops main_nums 3;; free_expr_list l) heap0
  = Fault.
Proof. vm_compute. reflexivity. Qed.

(** ** The evaluator *)

(** C7: a leaf evaluates to its value (which compares equal to it unless
    it is a NaN), a tuple to its operator applied to the values of its
    operands; on two leaves that is [a + b], [a - b], [a * b], [a / b] and
    [pow a b]. *)
Theorem expr_eval_spec (pow : float → float → float) :
  (∀ p v, expr_eval pow (DoubleExpr p v) = v)
  ∧ (∀ p v, is_nan v = false →
            (expr_eval pow (DoubleExpr p v) =? v)%float = true)
  ∧ (∀ p op left_ right_,
        expr_eval pow (TupleExpr p op left_ right_)
        = call pow op (expr_eval pow left_) (expr_eval pow right_))
  ∧ (∀ p pa pb a b,
        let leaf_a := DoubleExpr pa a in
        let leaf_b := DoubleExpr pb b in
        expr_eval pow (TupleExpr p add leaf_a leaf_b) = (a + b)%float
        ∧ expr_eval pow (TupleExpr p sub leaf_a leaf_b) = (a - b)%float
        ∧ expr_eval pow (TupleExpr p mul leaf_a leaf_b) = (a * b)%float
        ∧ expr_eval pow (TupleExpr p truediv leaf_a leaf_b) = (a / b)%float
        ∧ expr_eval pow (TupleExpr p power leaf_a leaf_b) = pow a b).
Proof.
  split_and!.
  - reflexivity.
  - intros p v Hnan. simpl. unfold is_nan in Hnan.
    by destruct (v =? v)%float.
  - reflexivity.
  - intros. split_and!; reflexivity.
Qed.

(** ** The formatter *)

(** Comparing equal to a finite non-zero double is being that double. *)
Lemma eqb_finite_eq (v w : float) (s : bool) (m : positive) (e : Z) :
  Prim2SF w = S754_finite s m e → (v =? w)%float = true → v = w.
Proof.
  intros Hw Heq. rewrite FloatAxioms.eqb_spec, Hw in Heq.
  apply Prim2SF_inj. rewrite Hw.
  unfold SFeqb, SFcompare in Heq.
  destruct (Prim2SF v) as [s'|s'| |s' m' e'].
  - destruct s; discriminate.
  - destruct s'; discriminate.
  - discriminate.
  - destruct s', s; try discriminate;
      destruct (Z.compare_spec e' e) as [He| |]; try discriminate;
      change (PosDef.Pos.compare_cont Eq m' m) with (Pos.compare m' m) in Heq;
      destruct (Pos.compare_spec m' m) as [Hm| |]; try discriminate;
      by rewrite He, Hm.
Qed.

Lemma op_char_spec (op : op_func) : op_char op = Some (spec_symbol op).
Proof. by destruct op. Qed.

(** C8 (as amended): a leaf that compares equal to [M_E] is written as
    "e", one that compares equal to [M_PI] as "pi"; a tuple whose operands
    have been written to its two local buffers of 256 bytes as [sl] and
    [sr], each of at most 255 characters, is written as "(sl c sr)", [c]
    being the symbol of its operator among + - * / ^; the product of [M_E]
    and [M_PI] is written as "(e * pi)". *)
Theorem expr_repr_spec :
  (∀ p v, (v =? M_E)%float = true → expr_repr (DoubleExpr p v) = Some "e"%string)
  ∧ (∀ p v, (v =? M_PI)%float = true →
            expr_repr (DoubleExpr p v) = Some "pi"%string)
  ∧ (∀ p op left_ right_ sl sr,
        into_buffer 256 (expr_repr left_) = Some sl →
        into_buffer 256 (expr_repr right_) = Some sr →
        expr_repr (TupleExpr p op left_ right_)
        = Some ("(" ++ sl ++ " " ++ String (spec_symbol op) (" " ++ sr ++ ")"))%string)
  ∧ (∀ p pl pr,
        expr_repr (TupleExpr p mul (DoubleExpr pl M_E) (DoubleExpr pr M_PI))
        = Some "(e * pi)"%string).
Proof.
  split_and!.
  - intros p v Hv.
    rewrite (eqb_finite_eq v M_E false 6121026514868073 (-51)); [reflexivity| |exact Hv].
    reflexivity.
  - intros p v Hv. simpl. by rewrite Hv.
  - intros p op left_ right_ sl sr Hl Hr. simpl.
    rewrite Hl, Hr, op_char_spec. reflexivity.
  - reflexivity.
Qed.

Lemma expr_repr_spec_witness :
  expr_repr (TupleExpr 2 mul (DoubleExpr 0 M_E) (DoubleExpr 1 M_PI))
  = Some "(e * pi)"%string.
Proof.
  apply (proj1 (proj2 (proj2 expr_repr_spec)) 2%nat mul
           (DoubleExpr 0 M_E) (DoubleExpr 1 M_PI) "e"%string "pi"%string);
    reflexivity.
Defined.

(** C8 (as stated) fails for an operand with a text of 256 characters or
    more: the chain of 43 additions is written as 259 characters, the
    leaf beside it as "e", and the tuple over the two is not written as
    these texts around "+": the text of the chain overruns
    [left_buffer]. *)
Lemma expr_repr_long_operand_unwritten :
  ¬ tuple_written_from_operands 0 add (chain 43) (DoubleExpr 0 M_E).
Proof.
  intros Hclaim.
  assert (Hl : ∃ sl, expr_repr (chain 43) = Some sl)
    by (eexists; vm_compute; reflexivity).
  destruct Hl as [sl Hl].
  specialize (Hclaim sl "e"%string Hl eq_refl).
  assert (Hnone : expr_repr (TupleExpr 0 add (chain 43) (DoubleExpr 0 M_E))
                  = None) by (vm_compute; reflexivity).
  rewrite Hnone in Hclaim. discriminate.
Qed.

(** The limits of the formatter: a leaf that is neither constant is not
    written at all, so a tuple over such a leaf reads a buffer that was
    never written; and an operand of 256 characters or more does not fit
    the local buffer it is written to. *)
Example expr_repr_other_leaf :
  expr_repr (DoubleExpr 0 2) = None
  ∧ expr_repr (TupleExpr 2 add (DoubleExpr 0 2) (DoubleExpr 1 3)) = None.
Proof. split; reflexivity. Qed.

Example expr_repr_long_operand :
  (String.length <$> expr_repr (chain 42)) = Some 253%nat
  ∧ (String.length <$> expr_repr (chain 43)) = Some 259%nat
  ∧ expr_repr (TupleExpr 0 add (chain 43) (DoubleExpr 0 M_E)) = None.
Proof. split_and!; vm_compute; reflexivity. Qed.

(** ** The expression list *)

(** C10 (as amended): on a list created with a capacity of at least one,
    and as long as fewer than 2^30 handles are stored (so that doubling the
    capacity stays within [int]), every append succeeds, keeps
    [0 <= size <= capacity], leaves the stored handles where they are,
    stores the new one at index [size], increases [size] by one and doubles
    [capacity] exactly when the list was full: the list holds the appended
    handles in insertion order. *)
Theorem append_expr_list_keeps_order (cap : Z) (xs : list Expr) (e : Expr) :
  1 ≤ cap ≤ INT_MAX → Z.of_nat (length xs) < 1073741824 →
  append_keeps_order cap xs e.
Proof.
  intros Hcap Hlen.
  destruct (append_all_spec (create_expr_list cap) [] xs)
    as (l & Hall & Hok & Hcapl & Hh);
    [apply create_expr_list_ok; lia | done | apply create_expr_list_holds
    | simpl; lia |].
  simpl in Hh.
  destruct (append_expr_list_spec l e xs)
    as (l' & Happ & Hok' & Hcap' & Hs' & Hc' & Hat & Hpre & Hh');
    [done | done | destruct Hh; lia | done |].
  exists l, l'. unfold list_ok in *. split_and!; try done; lia.
Qed.

Lemma append_expr_list_keeps_order_witness :
  append_keeps_order 100 [DoubleExpr 0 M_E] (DoubleExpr 1 M_PI).
Proof.
  apply (append_expr_list_keeps_order 100 [DoubleExpr 0 M_E] (DoubleExpr 1 M_PI)).
  - unfold INT_MAX. lia.
  - simpl. lia.
Defined.

(** C10 (as stated) fails for a list created with capacity 0: doubling
    leaves the capacity at 0, and the first append stores outside the
    slot array. *)
Lemma append_expr_list_capacity_0 :
  ¬ append_keeps_order 0 [] (DoubleExpr 0 M_E).
Proof.
  intros (l & l' & Hall & _ & _ & Happ & _).
  simpl in Hall. injection Hall as <-.
  vm_compute in Happ. discriminate.
Qed.

(** Past 2^30 elements the doubled capacity no longer fits an [int]: the
    append of a full list of that size fails. *)
Lemma append_expr_list_overflow (l : ExprList) (e : Expr) :
  size l = 1073741824 → capacity l = 1073741824 →
  append_expr_list l e = None.
Proof.
  intros Hs Hc. unfold append_expr_list, grow, store_next.
  rewrite Hs, Hc. simpl.
  change (Z.to_nat (wrap (1073741824 * 2))) with 0%nat.
  rewrite decide_False; [reflexivity|]. rewrite length_resize. lia.
Qed.

(** * Further properties of the code *)

(** ** [free_expr_list]: what is released, and when it goes wrong *)

Lemma release_nil (h : heap) : release [] h = h.
Proof. by destruct h. Qed.

Lemma release_app (ps qs : list addr) (h : heap) :
  release (ps ++ qs) h = release qs (release ps h).
Proof. unfold release; simpl. by rewrite reverse_app, app_assoc. Qed.

Lemma live_release (ps : list addr) (h : heap) (q : addr) :
  live (release ps h) q ↔ live h q ∧ q ∉ ps.
Proof.
  unfold live, release; simpl.
  rewrite not_elem_of_app, elem_of_reverse. tauto.
Qed.

Lemma not_elem_of_one (p a : addr) : p ≠ a → p ∉ [a].
Proof. intros Hne [->|[]%elem_of_nil]%elem_of_cons. done. Qed.

Lemma deref_ok (p : addr) (h h' : heap) :
  deref p h = Ok tt h' ↔ live h p ∧ h' = h.
Proof.
  unfold deref. case_decide; split; try done.
  - by injection 1 as <-.
  - by intros [_ ->].
  - by intros [? _].
Qed.

Lemma free_ok (p : addr) (h h' : heap) :
  free p h = Ok tt h' ↔ live h p ∧ h' = release [p] h.
Proof.
  unfold free. case_decide; split; try done.
  - by injection 1 as <-.
  - by intros [_ ->].
  - by intros [? _].
Qed.

Lemma bind_unit_ok (m k : M unit) (h h'' : heap) :
  bind m (fun _ => k) h = Ok tt h'' ↔ ∃ h', m h = Ok tt h' ∧ k h' = Ok tt h''.
Proof.
  unfold bind. split.
  - destruct (m h) as [[] h'| |]; [eauto | done | done].
  - by intros (h' & -> & ?).
Qed.

(** The three releases of one element succeed exactly when the three
    addresses are live and pairwise different. *)
Lemma free_element_ok (e : Expr) (h h' : heap) :
  free_element e h = Ok tt h'
  ↔ NoDup (released e) ∧ Forall (live h) (released e)
    ∧ h' = release (released e) h.
Proof.
  destruct e as [p v|p op l r]; simpl.
  - rewrite release_nil. unfold ret. split.
    + injection 1 as <-. split_and!; [constructor | constructor | done].
    + by intros (_ & _ & ->).
  - generalize (expr_ptr l) (expr_ptr r). intros a b.
    rewrite !NoDup_cons, !Forall_cons, !elem_of_cons.
    split.
    + intros (h1 & [Hp ->]%deref_ok & Hrun)%bind_unit_ok.
      apply bind_unit_ok in Hrun as (h2 & [Ha ->]%free_ok & Hrun).
      apply bind_unit_ok in Hrun as (h3 & [Hp2 ->]%deref_ok & Hrun).
      apply bind_unit_ok in Hrun as (h4 & [Hb ->]%free_ok & Hrun).
      apply free_ok in Hrun as [Hp3 ->].
      apply live_release in Hp2 as [_ Hpa].
      apply live_release in Hb as [Hb Hba].
      rewrite not_elem_of_cons in Hpa, Hba.
      apply live_release in Hp3 as [_ Hpb].
      rewrite not_elem_of_cons in Hpb.
      destruct Hpa as [Hpa _], Hba as [Hba _], Hpb as [Hpb _].
      split_and!; try done.
      * intros [Heq|[Heq|[]%elem_of_nil]]; congruence.
      * intros [Heq|[]%elem_of_nil]. congruence.
      * apply not_elem_of_nil.
      * constructor.
    + intros ((Hab & Hbp & _) & (Ha & Hb & Hp & _) & ->).
      apply bind_unit_ok. exists h. split; [by apply deref_ok|].
      apply bind_unit_ok. exists (release [a] h). split; [by apply free_ok|].
      assert (Hpa : p ≠ a) by (intros ->; tauto).
      assert (Hba : b ≠ a) by (intros ->; tauto).
      assert (Hpb : p ≠ b) by (intros ->; tauto).
      apply bind_unit_ok. exists (release [a] h).
      split; [apply deref_ok; split; [|done]; apply live_release;
              split; [done|]; by apply not_elem_of_one|].
      apply bind_unit_ok. exists (release [b] (release [a] h)).
      split; [apply free_ok; split; [|done]; apply live_release;
              split; [done|]; by apply not_elem_of_one|].
      apply free_ok. split; [|done].
      rewrite !live_release.
      split_and!; [done | by apply not_elem_of_one | by apply not_elem_of_one].
Qed.

Lemma free_elements_ok (xs : list Expr) :
  ∀ h h',
    free_elements xs h = Ok tt h'
    ↔ NoDup (flat_map released xs)
      ∧ Forall (live h) (flat_map released xs)
      ∧ h' = release (flat_map released xs) h.
Proof.
  induction xs as [|e xs IH]; intros h h'; simpl.
  - rewrite release_nil. unfold ret. split.
    + injection 1 as <-. split_and!; [constructor | constructor | done].
    + by intros (_ & _ & ->).
  - rewrite bind_unit_ok. split.
    + intros (h1 & (Hnd & Hlive & ->)%free_element_ok & Hrest).
      apply IH in Hrest as (Hnd' & Hlive' & ->).
      split_and!.
      * apply NoDup_app. split_and!; [done| |done].
        intros q Hq Hq'. rewrite Forall_forall in Hlive'.
        apply Hlive', live_release in Hq' as [_ Hq']. done.
      * apply Forall_app. split; [done|].
        eapply Forall_impl; [exact Hlive'|].
        by intros q [? _]%live_release.
      * by rewrite release_app.
    + intros ((Hnd & Hdisj & Hnd')%NoDup_app & [Hlive Hlive']%Forall_app & ->).
      exists (release (released e) h). split.
      * by apply free_element_ok.
      * apply IH. split_and!; [done | | by rewrite release_app].
        rewrite Forall_forall in Hlive' |- *. intros q Hq.
        apply live_release. split; [by apply Hlive'|].
        intros Hq'. by apply (Hdisj q).
Qed.

Lemma bind_assoc {A B C} (m : M A) (f : A → M B) (k : B → M C) (h : heap) :
  bind (bind m f) k h = bind m (fun a => bind (f a) k) h.
Proof. unfold bind. by destruct (m h). Qed.

Lemma bind_Fault {A B} (m : M A) (k : A → M B) h :
  m h = Fault → bind m k h = Fault.
Proof. unfold bind. by intros ->. Qed.

Lemma bind_ext {A B} (m : M A) (k1 k2 : A → M B) (h : heap) :
  (∀ a h', k1 a h' = k2 a h') → bind m k1 h = bind m k2 h.
Proof. intros Hk. unfold bind. by destruct (m h). Qed.

Lemma slot_ok (l : ExprList) (k : nat) (e : Expr) (h : heap) :
  expr l !! k = Some (Some e) → slot l (Z.of_nat k) h = Ok e h.
Proof.
  intros Hk. unfold slot, index, bind.
  rewrite decide_True by lia. rewrite Nat2Z.id, Hk. reflexivity.
Qed.

Lemma holds_lookup (l : ExprList) (xs : list Expr) (k : nat) (e : Expr) :
  holds l xs → xs !! k = Some e → expr l !! k = Some (Some e).
Proof.
  intros [Hsize Hused] He.
  assert (Hk : (k < length xs)%nat) by (apply lookup_lt_is_Some; eauto).
  rewrite <- (lookup_take_lt _ (Z.to_nat (size l))) by lia.
  unfold used in Hused. by rewrite Hused, list_lookup_fmap, He.
Qed.

(** The loop of [free_expr_list] over slots [k0], [k0 + 1], ... is the
    release of the elements stored there, one after the other. *)
Lemma release_loop (l : ExprList) :
  ∀ (xs : list Expr) (k0 : nat) (h : heap),
    (∀ k e, xs !! k = Some e → expr l !! (k0 + k)%nat = Some (Some e)) →
    for_loop (length xs) (Z.of_nat k0)
      (fun i (_ : unit) => e <- slot l i;; free_element e) tt h
    = free_elements xs h.
Proof.
  induction xs as [|x xs IH]; intros k0 h Hslots; [reflexivity|].
  simpl length. rewrite for_loop_S. simpl free_elements.
  rewrite bind_assoc.
  erewrite bind_Ok.
  2:{ apply slot_ok. rewrite <- (Nat.add_0_r k0). by apply Hslots. }
  apply bind_ext. intros [] h1.
  replace (Z.of_nat k0 + 1) with (Z.of_nat (S k0)) by lia.
  apply IH. intros k e He.
  replace (S k0 + k)%nat with (k0 + S k)%nat by lia. by apply Hslots.
Qed.

Lemma free_expr_list_elements (l : ExprList) (xs : list Expr) (h : heap) :
  holds l xs → free_expr_list l h = free_elements xs h.
Proof.
  intros Hxs. unfold free_expr_list, for_int.
  destruct Hxs as [Hsize Hused] eqn:E. clear E.
  replace (Z.to_nat (size l)) with (length xs) by lia.
  apply (release_loop l xs 0 h).
  intros k e He. simpl. by apply (holds_lookup l xs); [split|].
Qed.

Lemma free_element_fuel (e : Expr) (h : heap) : free_element e h ≠ OutOfFuel.
Proof.
  destruct e as [p v|p op l r]; simpl; [done|].
  unfold bind, deref, free. by repeat case_decide.
Qed.

Lemma free_elements_fuel (xs : list Expr) :
  ∀ h, free_elements xs h ≠ OutOfFuel.
Proof.
  induction xs as [|e xs IH]; intros h; simpl; [done|].
  unfold bind. pose proof (free_element_fuel e h).
  destruct (free_element e h); [apply IH | done | done].
Qed.

(** X1: [free_expr_list] on a list holding [xs] ends well exactly when the
    addresses it hands to [free] (for each tuple element the nodes of its
    two operands and the tuple itself, nothing for a leaf element) are
    pairwise different and live; it then has released exactly these, in
    this order, and allocated nothing.  No address is handed to [free]
    on account of a leaf element or of a node below an operand. *)
Theorem free_expr_list_releases (l : ExprList) (xs : list Expr) (h h' : heap) :
  holds l xs →
  free_expr_list l h = Ok tt h'
  ↔ NoDup (flat_map released xs)
    ∧ Forall (live h) (flat_map released xs)
    ∧ h' = {| next := next h;
              freed := reverse (flat_map released xs) ++ freed h |}.
Proof.
  intros Hxs. rewrite (free_expr_list_elements l xs h Hxs).
  apply free_elements_ok.
Qed.

Lemma free_expr_list_releases_witness :
  let t := TupleExpr 2 add (DoubleExpr 0 M_E) (DoubleExpr 1 M_PI) in
  let l := {| expr := [Some t]; size := 1; capacity := 1 |} in
  let h := {| next := 3; freed := [] |} in
  let h' := {| next := 3; freed := [2; 1; 0]%nat |} in
  free_expr_list l h = Ok tt h'
  ↔ NoDup (flat_map released [t])
    ∧ Forall (live h) (flat_map released [t])
    ∧ h' = {| next := next h;
              freed := reverse (flat_map released [t]) ++ freed h |}.
Proof.
  intros t l h h'.
  apply (free_expr_list_releases l [t] h h').
  split; reflexivity.
Defined.

(** X2: when two of these addresses coincide (an operand shared by two
    tuples of the list, or by both sides of one) or one of them is not
    live (an operand already released), [free_expr_list] faults. *)
Theorem free_expr_list_faults (l : ExprList) (xs : list Expr) (h : heap) :
  holds l xs →
  ¬ (NoDup (flat_map released xs) ∧ Forall (live h) (flat_map released xs)) →
  free_expr_list l h = Fault.
Proof.
  intros Hxs Hbad. rewrite (free_expr_list_elements l xs h Hxs).
  pose proof (free_elements_fuel xs h) as Hfuel.
  pose proof (free_elements_ok xs h) as Hok.
  destruct (free_elements xs h) as [[] h'| |]; [|done|done].
  destruct (Hok h') as [Hgood _]. exfalso. apply Hbad.
  destruct Hgood as (? & ? & _); done.
Qed.

Lemma free_expr_list_faults_witness :
  let a := DoubleExpr 0 M_E in
  let t1 := TupleExpr 3 add a (DoubleExpr 1 M_E) in
  let t2 := TupleExpr 4 add a (DoubleExpr 2 M_PI) in
  let l := {| expr := [Some t1; Some t2]; size := 2; capacity := 2 |} in
  free_expr_list l {| next := 5; freed := [] |} = Fault.
Proof.
  intros a t1 t2 l.
  apply (free_expr_list_faults l [t1; t2]).
  - split; reflexivity.
  - intros [Hnd _]. simpl in Hnd.
    apply NoDup_cons in Hnd as [Hnot _]. apply Hnot.
    do 2 right. left.
Defined.

Lemma released_flat_tuple (e : Expr) :
  flat_tuple e → released e ≡ₚ nodes e.
Proof.
  destruct e as [|p op [pl vl|] [pr vr|]]; simpl; try done.
  intros _. symmetry. apply Permutation_cons_append with (l := [pl; pr]).
Qed.

Lemma released_flat_tuples (xs : list Expr) :
  Forall flat_tuple xs → flat_map released xs ≡ₚ flat_map nodes xs.
Proof.
  induction 1 as [|e xs He _ IH]; simpl; [done|].
  by rewrite (released_flat_tuple e He), IH.
Qed.

(** X3: on a list of tuples of two leaves whose nodes are pairwise
    different and live, [free_expr_list] releases every node of every
    tree, each once, and nothing else. *)
Theorem free_expr_list_flat_tuples (l : ExprList) (xs : list Expr) (h : heap) :
  holds l xs → Forall flat_tuple xs →
  NoDup (flat_map nodes xs) → Forall (live h) (flat_map nodes xs) →
  ∃ h', free_expr_list l h = Ok tt h'
        ∧ next h' = next h
        ∧ ∀ q, q ∈ freed h' ↔ q ∈ flat_map nodes xs ∨ q ∈ freed h.
Proof.
  intros Hxs Hflat Hnd Hlive.
  pose proof (released_flat_tuples xs Hflat) as Hperm.
  eexists. split.
  - rewrite (free_expr_list_elements l xs h Hxs). apply free_elements_ok.
    split_and!; [by rewrite Hperm | by rewrite Hperm | reflexivity].
  - split; [reflexivity|]. intros q. simpl.
    by rewrite elem_of_app, elem_of_reverse, Hperm.
Qed.

Lemma free_expr_list_flat_tuples_witness :
  let t := TupleExpr 2 add (DoubleExpr 0 M_E) (DoubleExpr 1 M_PI) in
  let l := {| expr := [Some t]; size := 1; capacity := 1 |} in
  let h := {| next := 3; freed := [] |} in
  ∃ h', free_expr_list l h = Ok tt h'
        ∧ next h' = next h
        ∧ ∀ q, q ∈ freed h' ↔ q ∈ flat_map nodes [t] ∨ q ∈ freed h.
Proof.
  intros t l h.
  apply (free_expr_list_flat_tuples l [t] h).
  - split; reflexivity.
  - repeat constructor.
  - apply (bool_decide_unpack _). vm_compute. exact I.
  - apply (bool_decide_unpack _). vm_compute. exact I.
Defined.

(** ** [expr_iter]: every budget an [int] can hold *)

(** A negative budget is never 0 on the way down, and wraps to [INT_MAX]
    below the least [int]. *)
Lemma expr_iter_negative (fuel : nat) (ops : list op_func) (v0 v1 : float) :
  ∀ (limit : Z) (h : heap),
    -2147483648 ≤ limit < 0 → expr_iter fuel ops [v0; v1] limit h = OutOfFuel.
Proof.
  induction fuel as [|fuel IH]; intros limit h Hlimit; [reflexivity|].
  simpl. unfold expr_iter_body.
  destruct (Z.eqb_spec limit 0) as [|_]; [lia|].
  erewrite bind_Ok by apply seed_leaves.
  apply bind_OutOfFuel.
  unfold for_int. change (Z.to_nat OPS_SIZE) with 5%nat.
  rewrite for_loop_S. apply bind_OutOfFuel. apply bind_OutOfFuel.
  destruct (decide (limit = -2147483648)) as [->|Hne].
  - change (wrap (-2147483648 - 1)) with INT_MAX.
    apply expr_iter_out_of_fuel. unfold INT_MAX. lia.
  - rewrite wrap_id by (unfold INT_MAX; lia). apply IH. lia.
Qed.

(** The outcome of a call for every budget: the empty list at 0, the two
    leaves at 1, no return otherwise. *)
Lemma expr_iter_outcome (fuel : nat) (ops : list op_func) (v0 v1 : float)
    (limit : Z) (h : heap) :
  -2147483648 ≤ limit ≤ INT_MAX →
  expr_iter fuel ops [v0; v1] limit h = OutOfFuel
  ∨ (limit = 0
     ∧ expr_iter fuel ops [v0; v1] limit h = Ok (create_expr_list 100) h)
  ∨ (limit = 1
     ∧ expr_iter fuel ops [v0; v1] limit h
       = Ok (seeded h v0 v1) (after_leaves h)).
Proof.
  intros Hlimit.
  destruct (decide (limit < 0)) as [Hneg|Hnn].
  { left. apply expr_iter_negative. lia. }
  destruct (decide (2 ≤ limit)) as [Hbig|Hsmall].
  { left. apply expr_iter_out_of_fuel. lia. }
  assert (limit = 0 ∨ limit = 1) as [-> | ->] by lia.
  - destruct fuel as [|fuel]; [by left|]. right; left. done.
  - destruct (expr_iter_1_cases fuel ops v0 v1 h) as [->| ->];
      [by left | right; right; done].
Qed.

(** X4: with a negative budget a call never returns: the budget only
    moves away from 0, and past the least [int] it wraps around to
    [INT_MAX]. *)
Theorem expr_iter_negative_budget (fuel : nat) (ops : list op_func)
    (v0 v1 : float) (limit : Z) (h : heap) :
  -2147483648 ≤ limit < 0 →
  expr_iter fuel ops [v0; v1] limit h = OutOfFuel.
Proof. apply expr_iter_negative. Qed.

Lemma expr_iter_negative_budget_witness :
  expr_iter 50 main_ops main_nums (-1) heap0 = OutOfFuel.
Proof.
  apply (expr_iter_negative_budget 50 main_ops M_E M_PI (-1) heap0). lia.
Defined.

(** X5: the operator array is never read: for every budget, every amount
    of fuel and every heap, a call has the same outcome whatever the
    operator array holds, even when it has no entry at all. *)
Theorem expr_iter_ignores_ops (fuel : nat) (ops ops' : list op_func)
    (v0 v1 : float) (limit : Z) (h : heap) :
  -2147483648 ≤ limit ≤ INT_MAX →
  expr_iter fuel ops [v0; v1] limit h = expr_iter fuel ops' [v0; v1] limit h.
Proof.
  intros Hlimit.
  destruct (decide (limit < 0)) as [Hneg|Hnn].
  { by rewrite !expr_iter_negative by lia. }
  destruct (decide (2 ≤ limit)) as [Hbig|Hsmall].
  { by rewrite !expr_iter_out_of_fuel by lia. }
  assert (limit = 0 ∨ limit = 1) as [-> | ->] by lia.
  - by destruct fuel.
  - by destruct fuel as [|[|fuel]].
Qed.

Lemma expr_iter_ignores_ops_witness :
  expr_iter 2 main_ops [M_E; M_PI] 1 heap0 = expr_iter 2 [] [M_E; M_PI] 1 heap0.
Proof.
  apply (expr_iter_ignores_ops 2 main_ops [] M_E M_PI 1 heap0).
  unfold INT_MAX. lia.
Defined.

(** X6: whenever a call returns, for whatever budget, the list is in
    order and holds leaves only (no tuple is ever built), its nodes are
    exactly the addresses the call allocated, one per element, and
    nothing was released. *)
Theorem expr_iter_returns_leaves (fuel : nat) (ops : list op_func)
    (v0 v1 : float) (limit : Z) (h : heap) (l : ExprList) (h' : heap) :
  -2147483648 ≤ limit ≤ INT_MAX →
  expr_iter fuel ops [v0; v1] limit h = Ok l h' →
  list_ok l ∧ holds l (contents l)
  ∧ Forall (fun e => type e = 0) (contents l)
  ∧ flat_map nodes (contents l) = seq (next h) (length (contents l))
  ∧ next h' = (next h + length (contents l))%nat
  ∧ freed h' = freed h.
Proof.
  intros Hlimit Hrun.
  destruct (expr_iter_outcome fuel ops v0 v1 limit h Hlimit)
    as [Hout | [[-> Hok] | [-> Hok]]]; rewrite Hrun in *.
  - discriminate.
  - injection Hok as -> ->.
    split_and!; try done; try (simpl; lia);
      try (apply create_expr_list_ok; unfold INT_MAX; lia).
  - injection Hok as -> ->.
    rewrite (holds_contents _ _ (seeded_holds h v0 v1)).
    split_and!; try done; try (simpl; lia);
      try apply seeded_ok; try apply seeded_holds; repeat constructor.
Qed.

Lemma expr_iter_returns_leaves_witness :
  let l := seeded heap0 M_E M_PI in
  let h' := after_leaves heap0 in
  list_ok l ∧ holds l (contents l)
  ∧ Forall (fun e => type e = 0) (contents l)
  ∧ flat_map nodes (contents l) = seq (next heap0) (length (contents l))
  ∧ next h' = (next heap0 + length (contents l))%nat
  ∧ freed h' = freed heap0.
Proof.
  intros l h'.
  apply (expr_iter_returns_leaves 2 main_ops M_E M_PI 1 heap0 l h').
  - unfold INT_MAX. lia.
  - reflexivity.
Defined.

(** X7: a constant array of fewer than [NUMS_SIZE] entries is read past
    its end: with a budget other than 0 the call faults before any
    recursive call. *)
Theorem expr_iter_short_nums (fuel : nat) (ops : list op_func)
    (nums : list float) (limit : Z) (h : heap) :
  limit ≠ 0 → Z.of_nat (length nums) < NUMS_SIZE →
  expr_iter (S fuel) ops nums limit h = Fault.
Proof.
  intros Hlimit Hlen. simpl. unfold expr_iter_body.
  destruct (Z.eqb_spec limit 0) as [|_]; [done|].
  apply bind_Fault.
  destruct nums as [|v0 [|v1 nums]]; [reflexivity | reflexivity |].
  simpl in Hlen. unfold NUMS_SIZE in Hlen. lia.
Qed.

Lemma expr_iter_short_nums_witness :
  expr_iter 1 main_ops [M_E] 1 heap0 = Fault.
Proof.
  apply (expr_iter_short_nums 0 main_ops [M_E] 1 heap0).
  - lia.
  - unfold NUMS_SIZE. simpl. lia.
Defined.

(** ** [main] *)

(** X8: for every value of the macro [LIMIT] other than 0 and 1, 7 as
    written included, the program never reaches its print loop, let alone
    [return 0]: the call [expr_iter(ops, nums, LIMIT)] it starts with
    does not return, whatever [pow] and [floor] compute. *)
Theorem main_never_returns (pow : float → float → float)
    (floor : float → float) (limit : Z) (fuel : nat) (h : heap) :
  -2147483648 ≤ limit ≤ INT_MAX → limit ≠ 0 → limit ≠ 1 →
  main_with pow floor limit fuel h = OutOfFuel.
Proof.
  intros Hlimit H0 H1. unfold main_with. apply bind_OutOfFuel.
  destruct (decide (limit < 0)).
  - apply expr_iter_negative. lia.
  - apply expr_iter_out_of_fuel. lia.
Qed.

Lemma main_never_returns_witness :
  main (fun a _ => a) floor_small 10 heap0 = OutOfFuel.
Proof.
  apply (main_never_returns (fun a _ => a) floor_small LIMIT 10 heap0);
    unfold LIMIT, INT_MAX; lia.
Defined.

(** X9: whatever value the macro [LIMIT] is given, the program prints no
    line: it either does not return (every value but 0 and 1) or returns
    0 with an empty output, never faults, and releases no node it
    allocated.  The only property of [floor] this rests on is that it
    takes neither constant to 114514. *)
Theorem main_prints_nothing (pow : float → float → float)
    (floor : float → float) (limit : Z) (fuel : nat) (h : heap) :
  -2147483648 ≤ limit ≤ INT_MAX →
  (floor M_E =? 114514)%float = false →
  (floor M_PI =? 114514)%float = false →
  main_with pow floor limit fuel h = OutOfFuel
  ∨ ((limit = 0 ∨ limit = 1)
     ∧ ∃ h', main_with pow floor limit fuel h = Ok (0, []) h'
             ∧ next h' = (next h + Z.to_nat (2 * limit))%nat
             ∧ freed h' = freed h).
Proof.
  intros Hlimit HE HPI. unfold main_with.
  destruct (expr_iter_outcome fuel main_ops M_E M_PI limit h Hlimit)
    as [Hout | [[-> Hok] | [-> Hok]]].
  - left. by apply bind_OutOfFuel.
  - right. split; [by left|]. exists h.
    erewrite bind_Ok by exact Hok. split; [reflexivity|].
    simpl. split; [lia | done].
  - right. split; [by right|]. exists (after_leaves h).
    erewrite bind_Ok by exact Hok. split; [|split; [simpl; lia | done]].
    unfold for_int.
    change (Z.to_nat (size (seeded h M_E M_PI))) with 2%nat.
    match goal with
    | |- bind (for_loop _ _ ?F _) _ _ = _ =>
        assert (Hloop : for_loop 2 0 F [] (after_leaves h)
                        = Ok [] (after_leaves h))
    end.
    { rewrite for_loop_S. erewrite bind_Ok.
      2:{ erewrite bind_Ok by (apply (slot_ok _ 0); reflexivity).
          cbn [expr_eval]. rewrite HE. reflexivity. }
      rewrite for_loop_S. erewrite bind_Ok.
      2:{ erewrite bind_Ok by (apply (slot_ok _ 1); reflexivity).
          cbn [expr_eval]. rewrite HPI. reflexivity. }
      reflexivity. }
    erewrite bind_Ok by exact Hloop.
    erewrite bind_Ok; [reflexivity|].
    apply (free_expr_list_of_leaves _ (leaves h M_E M_PI));
      [apply seeded_holds | repeat constructor].
Qed.

Lemma main_prints_nothing_witness :
  main_with (fun a _ => a) floor_small 1 2 heap0 = OutOfFuel
  ∨ ((1 = 0 ∨ 1 = 1)
     ∧ ∃ h', main_with (fun a _ => a) floor_small 1 2 heap0 = Ok (0, []) h'
             ∧ next h' = (next heap0 + Z.to_nat (2 * 1))%nat
             ∧ freed h' = freed heap0).
Proof.
  apply (main_prints_nothing (fun a _ => a) floor_small 1 2 heap0).
  - unfold INT_MAX. lia.
  - reflexivity.
  - reflexivity.
Defined.

(** ** [expr_repr]: the text determines the expression *)

Lemma string_app_assoc (s1 s2 s3 : string) :
  ((s1 ++ s2) ++ s3 = s1 ++ (s2 ++ s3))%string.
Proof. induction s1 as [|c s1 IH]; simpl; [done|]. by rewrite IH. Qed.

Lemma string_app_inv_head (s t1 t2 : string) :
  (s ++ t1 = s ++ t2)%string → t1 = t2.
Proof. induction s as [|c s IH]; simpl; [done|]. intros [= H]. by apply IH. Qed.

Lemma string_length_app (s1 s2 : string) :
  String.length (s1 ++ s2) = (String.length s1 + String.length s2)%nat.
Proof. induction s1 as [|c s1 IH]; simpl; [done|]. by rewrite IH. Qed.

Lemma into_buffer_inv (n : nat) (text : option string) (s : string) :
  into_buffer n text = Some s → text = Some s ∧ (String.length s < n)%nat.
Proof.
  destruct text as [s'|]; simpl; [|done].
  case_decide; [|done]. by intros [= ->].
Qed.

Lemma prim2sf_M_PI : Prim2SF M_PI = S754_finite false 7074237752028440 (-51).
Proof. reflexivity. Qed.

Lemma prim2sf_M_E : Prim2SF M_E = S754_finite false 6121026514868073 (-51).
Proof. reflexivity. Qed.

(** What was written for a leaf, and for a tuple. *)
Lemma expr_repr_leaf_inv (p : addr) (v : float) (s : string) :
  expr_repr (DoubleExpr p v) = Some s →
  (v = M_PI ∧ s = "pi"%string) ∨ (v = M_E ∧ s = "e"%string).
Proof.
  simpl. destruct (v =? M_PI)%float eqn:Hpi.
  - intros [= <-]. left. split; [|done].
    by apply (eqb_finite_eq v M_PI _ _ _ prim2sf_M_PI).
  - destruct (v =? M_E)%float eqn:He; [|done].
    intros [= <-]. right. split; [|done].
    by apply (eqb_finite_eq v M_E _ _ _ prim2sf_M_E).
Qed.

Lemma expr_repr_tuple_inv (p : addr) (op : op_func) (l r : Expr) (s : string) :
  expr_repr (TupleExpr p op l r) = Some s →
  ∃ sl sr,
    expr_repr l = Some sl ∧ (String.length sl < 256)%nat
    ∧ expr_repr r = Some sr ∧ (String.length sr < 256)%nat
    ∧ s = ("(" ++ sl ++ " " ++ String (spec_symbol op) (" " ++ sr ++ ")"))%string.
Proof.
  simpl. rewrite op_char_spec.
  destruct (into_buffer 256 (expr_repr l)) as [sl|] eqn:Hl; [|done].
  destruct (into_buffer 256 (expr_repr r)) as [sr|] eqn:Hr; [|done].
  apply into_buffer_inv in Hl as [Hl ?], Hr as [Hr ?].
  intros [= <-]. by exists sl, sr.
Qed.

Lemma spec_symbol_inj (op1 op2 : op_func) :
  spec_symbol op1 = spec_symbol op2 → op1 = op2.
Proof. by destruct op1, op2. Qed.

(** No text is the beginning of another: two texts that start the same
    string are the same text, of the same expression. *)
Lemma expr_repr_prefix (e1 : Expr) :
  ∀ (e2 : Expr) (s1 s2 t1 t2 : string),
    expr_repr e1 = Some s1 → expr_repr e2 = Some s2 →
    (s1 ++ t1 = s2 ++ t2)%string →
    shape e1 = shape e2 ∧ s1 = s2.
Proof.
  induction e1 as [p1 v1|p1 op1 l1 IHl r1 IHr];
    intros [p2 v2|p2 op2 l2 r2] s1 s2 t1 t2 H1 H2 Heq.
  - apply expr_repr_leaf_inv in H1 as [[-> ->]|[-> ->]];
      apply expr_repr_leaf_inv in H2 as [[-> ->]|[-> ->]];
      try done; simpl in Heq; discriminate.
  - apply expr_repr_tuple_inv in H2 as (sl & sr & _ & _ & _ & _ & ->).
    apply expr_repr_leaf_inv in H1 as [[-> ->]|[-> ->]];
      simpl in Heq; discriminate.
  - apply expr_repr_tuple_inv in H1 as (sl & sr & _ & _ & _ & _ & ->).
    apply expr_repr_leaf_inv in H2 as [[-> ->]|[-> ->]];
      simpl in Heq; discriminate.
  - apply expr_repr_tuple_inv in H1 as (sl1 & sr1 & Hl1 & _ & Hr1 & _ & ->).
    apply expr_repr_tuple_inv in H2 as (sl2 & sr2 & Hl2 & _ & Hr2 & _ & ->).
    simpl in Heq. injection Heq as Heq.
    rewrite !string_app_assoc in Heq.
    destruct (IHl l2 sl1 sl2 _ _ Hl1 Hl2 Heq) as [Hshl ->].
    apply string_app_inv_head in Heq. simpl in Heq.
    injection Heq as Hop Heq. apply spec_symbol_inj in Hop as ->.
    rewrite !string_app_assoc in Heq.
    destruct (IHr r2 sr1 sr2 _ _ Hr1 Hr2 Heq) as [Hshr ->].
    simpl. by rewrite Hshl, Hshr.
Qed.

Lemma expr_eval_shape (pow : float → float → float) (e : Expr) :
  expr_eval pow (shape e) = expr_eval pow e.
Proof.
  induction e as [|p op l IHl r IHr]; simpl; [done|]. by rewrite IHl, IHr.
Qed.

(** X10: the text is unambiguous: two expressions written as the same
    text have the same operators and the same constants at the same
    places; they can only differ in where their nodes are stored. *)
Theorem expr_repr_unambiguous (e1 e2 : Expr) (s : string) :
  expr_repr e1 = Some s → expr_repr e2 = Some s → shape e1 = shape e2.
Proof.
  intros H1 H2.
  by destruct (expr_repr_prefix e1 e2 s s "" "" H1 H2 eq_refl).
Qed.

Lemma expr_repr_unambiguous_witness :
  shape (TupleExpr 2 mul (DoubleExpr 0 M_E) (DoubleExpr 1 M_PI))
  = shape (TupleExpr 7 mul (DoubleExpr 5 M_E) (DoubleExpr 6 M_PI)).
Proof.
  apply (expr_repr_unambiguous _ _ "(e * pi)"); reflexivity.
Defined.

(** X11: what is printed beside a text is determined by the text: two
    expressions written as the same text evaluate to the same value. *)
Theorem expr_repr_determines_value (pow : float → float → float)
    (e1 e2 : Expr) (s : string) :
  expr_repr e1 = Some s → expr_repr e2 = Some s →
  expr_eval pow e1 = expr_eval pow e2.
Proof.
  intros H1 H2.
  destruct (expr_repr_prefix e1 e2 s s "" "" H1 H2 eq_refl) as [Hshape _].
  by rewrite <- (expr_eval_shape pow e1), Hshape, expr_eval_shape.
Qed.

Lemma expr_repr_determines_value_witness :
  expr_eval (fun a _ => a) (TupleExpr 2 mul (DoubleExpr 0 M_E) (DoubleExpr 1 M_PI))
  = expr_eval (fun a _ => a) (TupleExpr 7 mul (DoubleExpr 5 M_E) (DoubleExpr 6 M_PI)).
Proof.
  apply (expr_repr_determines_value _ _ _ "(e * pi)"); reflexivity.
Defined.

(** ** [expr_repr]: what fits the buffers *)

Lemma expr_repr_length (e : Expr) :
  constants_only e → (operators e ≤ 36)%nat →
  ∃ s, expr_repr e = Some s
       ∧ (String.length s ≤ 7 * operators e + 2)%nat.
Proof.
  induction e as [p v|p op l IHl r IHr]; simpl; intros Hc Hn.
  - destruct (v =? M_PI)%float; [exists "pi"%string; simpl; split; [done|lia]|].
    destruct Hc as [|Hc]; [done|]. rewrite Hc.
    exists "e"%string. simpl. split; [done|lia].
  - destruct Hc as [Hcl Hcr].
    destruct (IHl Hcl) as (sl & -> & Hsl); [lia|].
    destruct (IHr Hcr) as (sr & -> & Hsr); [lia|].
    simpl. rewrite !decide_True by lia. rewrite op_char_spec.
    eexists. split; [reflexivity|].
    simpl. rewrite string_length_app. simpl. rewrite string_length_app. simpl.
    lia.
Qed.

(** X12: an expression over the two constants with at most 36 operators
    is always written, and its text fits the 256 bytes of [main]'s
    buffer: no leaf is left unwritten and no local buffer is overrun. *)
Theorem expr_repr_fits (e : Expr) :
  constants_only e → (operators e ≤ 36)%nat →
  ∃ s, into_buffer 256 (expr_repr e) = Some s
       ∧ (String.length s ≤ 7 * operators e + 2)%nat.
Proof.
  intros Hc Hn. destruct (expr_repr_length e Hc Hn) as (s & -> & Hs).
  exists s. simpl. rewrite decide_True by lia. done.
Qed.

Lemma expr_repr_fits_witness :
  let e := TupleExpr 2 mul (DoubleExpr 0 M_E) (DoubleExpr 1 M_PI) in
  ∃ s, into_buffer 256 (expr_repr e) = Some s
       ∧ (String.length s ≤ 7 * operators e + 2)%nat.
Proof.
  intros e. apply (expr_repr_fits e).
  - split; [by right | by left].
  - simpl. lia.
Defined.

Lemma expr_repr_written_length (e : Expr) :
  ∀ s, expr_repr e = Some s →
       constants_only e
       ∧ (6 * operators e + 1 ≤ String.length s ≤ 7 * operators e + 2)%nat.
Proof.
  induction e as [p v|p op l IHl r IHr]; intros s Hs.
  - simpl in *. destruct (v =? M_PI)%float.
    + injection Hs as <-. simpl. split; [by left | lia].
    + destruct (v =? M_E)%float; [|done].
      injection Hs as <-. simpl. split; [by right | lia].
  - apply expr_repr_tuple_inv in Hs as (sl & sr & Hl & _ & Hr & _ & ->).
    destruct (IHl sl Hl) as [Hcl Hll], (IHr sr Hr) as [Hcr Hlr].
    split; [done|].
    simpl. rewrite string_length_app. simpl. rewrite string_length_app.
    simpl. lia.
Qed.

(** X13: whenever [expr_repr] writes a text, every leaf of the expression
    compares equal to [M_E] or [M_PI], and the text has between 6 and 7
    characters per operator, plus 1 or 2: an expression with another leaf
    is never written, and one with more than 42 operators never fits the
    256 bytes of [main]'s buffer. *)
Theorem expr_repr_written (e : Expr) (s : string) :
  expr_repr e = Some s →
  constants_only e
  ∧ (6 * operators e + 1 ≤ String.length s ≤ 7 * operators e + 2)%nat
  ∧ ((42 < operators e)%nat → into_buffer 256 (expr_repr e) = None).
Proof.
  intros Hs. destruct (expr_repr_written_length e s Hs) as [Hc Hlen].
  split; [done|]. split; [done|].
  intros Hbig. rewrite Hs. simpl. rewrite decide_False by lia. done.
Qed.

Lemma expr_repr_written_witness :
  let e := TupleExpr 2 mul (DoubleExpr 0 M_E) (DoubleExpr 1 M_PI) in
  constants_only e
  ∧ (6 * operators e + 1 ≤ String.length "(e * pi)" ≤ 7 * operators e + 2)%nat
  ∧ ((42 < operators e)%nat → into_buffer 256 (expr_repr e) = None).
Proof.
  intros e. apply (expr_repr_written e "(e * pi)"). reflexivity.
Defined.

(** ** [append_expr_list]: when the store is possible *)

Lemma wrap_high (z : Z) :
  2147483648 ≤ z < 4294967296 → wrap z = z - 4294967296.
Proof.
  intros Hz. unfold wrap.
  replace (z + 2147483648) with (z - 2147483648 + 1 * 4294967296) by lia.
  rewrite Z_mod_plus_full, Z.mod_small by lia. lia.
Qed.

(** X14: on a list in use ([0 <= size <= capacity], one slot per unit of
    capacity), [append_expr_list] can store the handle exactly when the
    list is not full, or is full with a capacity from 1 to 2^30 - 1; a
    full list of capacity 0, or of capacity 2^30 and more (whose double
    is no [int]), has no slot for it. *)
Theorem append_expr_list_possible (l : ExprList) (e : Expr) :
  list_ok l →
  is_Some (append_expr_list l e)
  ↔ size l < capacity l
    ∨ (size l = capacity l ∧ 1 ≤ capacity l < 1073741824).
Proof.
  intros (Hsz & Hcap & Hlen). unfold append_expr_list.
  destruct (Z.eqb_spec (size l) (capacity l)) as [Heq|Hne].
  - unfold store_next, grow; simpl. rewrite length_resize.
    destruct (decide (1 ≤ capacity l < 1073741824)) as [Hin|Hout].
    + rewrite wrap_id by (unfold INT_MAX; lia).
      rewrite decide_True by lia. split; [by right | by eexists].
    + assert (Z.to_nat (wrap (capacity l * 2)) = 0%nat) as ->.
      { destruct (decide (capacity l = 0)) as [->|Hnz]; [reflexivity|].
        rewrite wrap_high by (unfold INT_MAX in *; lia).
        unfold INT_MAX in *; lia. }
      rewrite decide_False by lia. split.
      * by intros [? [=]].
      * intros [?|[_ ?]]; [lia | done].
  - unfold store_next. rewrite decide_True by lia.
    split; [intros _; left; lia | by eexists].
Qed.

Lemma append_expr_list_possible_witness :
  is_Some (append_expr_list (create_expr_list 100) (DoubleExpr 0 M_E))
  ↔ size (create_expr_list 100) < capacity (create_expr_list 100)
    ∨ (size (create_expr_list 100) = capacity (create_expr_list 100)
       ∧ 1 ≤ capacity (create_expr_list 100) < 1073741824).
Proof.
  apply (append_expr_list_possible (create_expr_list 100) (DoubleExpr 0 M_E)).
  apply create_expr_list_ok. unfold INT_MAX. lia.
Defined.

(** ** The constructors, the list and the release together *)

(** X15: a tuple created over two newly created leaves, appended to a
    new list and released with [free_expr_list] leaves nothing behind:
    the three nodes just allocated are the three nodes released, and
    every address is live afterwards exactly when it was before.  The heap
    is one in which only addresses handed out have been released. *)
Theorem build_then_free (op : op_func) (a b : float) (h : heap) :
  Forall (fun q => (q < next h)%nat) (freed h) →
  ∃ h', (l <- build_flat op a b;; free_expr_list l) h = Ok tt h'
        ∧ next h' = (next h + 3)%nat
        ∧ freed h' = [S (S (next h)); S (next h); next h] ++ freed h
        ∧ ∀ q, live h' q ↔ live h q.
Proof.
  intros Hwf. set (n := next h).
  set (t := TupleExpr (S (S n)) op (DoubleExpr n a) (DoubleExpr (S n) b)).
  set (h1 := {| next := S (S (S n)); freed := freed h |}).
  assert (Hfresh : ∀ q, (n ≤ q)%nat → q ∉ freed h).
  { intros q Hq Hin. rewrite Forall_forall in Hwf.
    specialize (Hwf q Hin). lia. }
  assert (Hbuild : build_flat op a b h
                   = Ok {| expr := Some t :: replicate 99 None;
                           size := 1; capacity := 100 |} h1) by reflexivity.
  assert (Hfree : free_expr_list
                    {| expr := Some t :: replicate 99 None;
                       size := 1; capacity := 100 |} h1
                  = Ok tt (release [n; S n; S (S n)] h1)).
  { rewrite (free_expr_list_elements _ [t]) by (split; reflexivity).
    apply free_elements_ok. simpl. split_and!; [| |done].
    - rewrite !NoDup_cons, !not_elem_of_cons.
      split_and!; try lia; try apply not_elem_of_nil. constructor.
    - repeat constructor; simpl; try lia; apply Hfresh; lia. }
  eexists. split; [erewrite bind_Ok by exact Hbuild; exact Hfree|].
  split_and!; [simpl; lia | reflexivity |].
  intros q. rewrite live_release. unfold live; simpl. fold n.
  rewrite !not_elem_of_cons. split.
  - intros ((Hq & Hnf) & ? & ? & ? & _). split; [lia|done].
  - intros [Hq Hnf]. split_and!; try done; try lia. apply not_elem_of_nil.
Qed.

Lemma build_then_free_witness :
  ∃ h', (l <- build_flat add M_E M_PI;; free_expr_list l) heap0 = Ok tt h'
        ∧ next h' = (next heap0 + 3)%nat
        ∧ freed h' = [S (S (next heap0)); S (next heap0); next heap0] ++ freed heap0
        ∧ ∀ q, live h' q ↔ live heap0 q.
Proof.
  apply (build_then_free add M_E M_PI heap0). constructor.
Defined.
